(** * portfolio_v3: the page script [script.js]

    A shallow embedding of the interactive behaviour of the portfolio page
    and the properties of its handlers.

    - element class lists ([classList]) are finite sets of class names;
    - [localStorage] is a finite map from keys to values;
    - text typed by the user is a sequence of UTF-16 code units;
    - [setTimeout]/[clearTimeout] act on an explicit queue of pending timers
      with a logical clock counted in milliseconds. *)

From Stdlib Require Import ZArith NArith QArith Bool List Lia.
From stdpp Require Import base gmap sets list strings.

Set Warnings "-clear-no-such-hyp".

(** * Part I: the model *)

(** ** DOMTokenList: [element.classList]

    A class list is taken as the set of its tokens; the order in which
    they are written in the [class] attribute is not kept. *)

Definition classList_add (c : string) (cl : gset string) : gset string :=
  cl ∪ {[ c ]}.

Definition classList_remove (c : string) (cl : gset string) : gset string :=
  cl ∖ {[ c ]}.

Definition classList_contains (c : string) (cl : gset string) : bool :=
  bool_decide (c ∈ cl).

(** ** Theme toggle (dark/light mode) *)

Module Theme.

(** [localStorage.setItem] and [localStorage.getItem]; [getItem] of a key
    that is absent is [null], here [None]. *)
Definition setItem (k v : string) (store : gmap string string)
  : gmap string string := <[ k := v ]> store.

Definition getItem (k : string) (store : gmap string string)
  : option string := store !! k.

(** The part of the page the theme code reads and writes. *)
Record Page := mkPage {
  body : gset string;               (* document.body.classList *)
  themeIcon : gset string;          (* #themeIcon classList *)
  localStorage : gmap string string
}.

Definition toggleTheme (p : Page) : Page :=
  let isDarkMode := classList_contains "dark-mode" (body p) in
  if isDarkMode then
    {| body := classList_add "light-mode" (classList_remove "dark-mode" (body p));
       themeIcon := classList_add "bx-sun" (classList_remove "bx-moon" (themeIcon p));
       localStorage := setItem "theme" "light" (localStorage p) |}
  else
    {| body := classList_add "dark-mode" (classList_remove "light-mode" (body p));
       themeIcon := classList_add "bx-moon" (classList_remove "bx-sun" (themeIcon p));
       localStorage := setItem "theme" "dark" (localStorage p) |}.

Definition loadTheme (p : Page) : Page :=
  let savedTheme := getItem "theme" (localStorage p) in
  if bool_decide (savedTheme = Some "light") then
    {| body := classList_add "light-mode" (classList_remove "dark-mode" (body p));
       themeIcon := classList_add "bx-sun" (classList_remove "bx-moon" (themeIcon p));
       localStorage := localStorage p |}
  else
    {| body := classList_add "dark-mode" (body p);
       themeIcon := classList_add "bx-moon" (themeIcon p);
       localStorage := localStorage p |}.

(** A page shows the dark theme consistently when the body carries
    [dark-mode] and not [light-mode], the icon carries [bx-moon] and not
    [bx-sun], and the stored preference is ["dark"]; likewise for light. *)
Definition shows_dark (p : Page) : Prop :=
  ("dark-mode" ∈ body p) ∧ ("light-mode" ∉ body p) ∧
  ("bx-moon" ∈ themeIcon p) ∧ ("bx-sun" ∉ themeIcon p) ∧
  getItem "theme" (localStorage p) = Some "dark".

Definition shows_light (p : Page) : Prop :=
  ("light-mode" ∈ body p) ∧ ("dark-mode" ∉ body p) ∧
  ("bx-sun" ∈ themeIcon p) ∧ ("bx-moon" ∉ themeIcon p) ∧
  getItem "theme" (localStorage p) = Some "light".

Definition consistent (p : Page) : Prop := shows_dark p ∨ shows_light p.

(** The page as [loadTheme] leaves it on a first visit: nothing stored, no
    theme class in the markup. *)
Definition first_visit : Page :=
  loadTheme {| body := ∅; themeIcon := ∅; localStorage := ∅ |}.

End Theme.

(** ** Header scroll effect *)

Module Header.

(** What the handler reads from the window: both numbers are doubles,
    taken here as rationals (the browser never reports NaN or an
    infinity for a scroll offset). *)
Record Window := mkWindow {
  pageYOffset : Q;
  documentElement_scrollTop : Q
}.

Record State := mkState {
  header : gset string;             (* #header classList *)
  lastScrollTop : Q                 (* let lastScrollTop = 0 *)
}.

(** [a || b] on numbers: [b] when [a] is zero, [a] otherwise. *)
Definition js_or (a b : Q) : Q := if Qeq_bool a 0 then b else a.

(** [a > b] *)
Definition Qgtb (a b : Q) : bool := negb (Qle_bool a b).

Definition scrollTop (win : Window) : Q :=
  js_or (pageYOffset win) (documentElement_scrollTop win).

(** The listener registered on the window's [scroll] event. *)
Definition on_scroll (win : Window) (s : State) : State :=
  let scrollTop := scrollTop win in
  {| header := if Qgtb scrollTop 100
               then classList_add "scrolled" (header s)
               else classList_remove "scrolled" (header s);
     lastScrollTop := scrollTop |}.

(** The second listener on [scroll]: [window.scrollY] decides whether the
    back-to-top button ([#backToTop] class list) is visible. *)
Definition backToTop_on_scroll (scrollY : Q) (backToTop : gset string)
  : gset string :=
  if Qgtb scrollY 500
  then classList_add "visible" backToTop
  else classList_remove "visible" backToTop.

End Header.

(** ** Active navigation link *)

Module Nav.

(** A nav link ([.nav-link]): its [data-section] attribute ([None] when the
    attribute is absent) and its class list. [navLinks] is the list of the
    page's nav links in document order; the script never adds or removes
    one, so [document.querySelector('.nav-link...')] searches the same
    elements. *)
Record NavLink := mkNavLink {
  data_section : option string;
  classes : gset string
}.

(** An IntersectionObserverEntry: [entry.isIntersecting] and
    [entry.target.getAttribute('id')] ([None] for [null]). *)
Record Entry := mkEntry {
  isIntersecting : bool;
  target_id : option string
}.

(** How a handler ends: normally, or by an exception that stops the
    enclosing [forEach]. *)
Inductive Completion := Normal | Throw.

(** [`${sectionId}`]: [null] is printed as the four letters [null]. *)
Definition template (sectionId : option string) : string :=
  match sectionId with Some s => s | None => "null" end.

(** [navLinks.forEach(link => link.classList.remove('active'))] *)
Definition clear_active (links : list NavLink) : list NavLink :=
  map (λ l, {| data_section := data_section l;
               classes := classList_remove "active" (classes l) |}) links.

(** Index of the first nav link whose [data-section] attribute is [v]. *)
Fixpoint first_with_section (v : string) (links : list NavLink) : option nat :=
  match links with
  | [] => None
  | l :: rest =>
      if bool_decide (data_section l = Some v) then Some 0
      else S <$> first_with_section v rest
  end.

Definition add_active (l : NavLink) : NavLink :=
  {| data_section := data_section l;
     classes := classList_add "active" (classes l) |}.

Definition is_active (l : NavLink) : bool :=
  classList_contains "active" (classes l).

(** Number of nav links that carry [active]. *)
Fixpoint active_count (links : list NavLink) : nat :=
  match links with
  | [] => 0
  | l :: rest => (if is_active l then 1 else 0) + active_count rest
  end.

Definition at_most_one_active (links : list NavLink) : Prop :=
  (active_count links ≤ 1)%nat.

Section Observer.

(** The selector is built by pasting the id between double quotes. What
    the selector parser reads back from those characters is a parameter:
    [Some v] when the selector parses to [.nav-link[data-section=v]],
    [None] when it does not parse and [querySelector] throws. *)
Variable css_string : string → option string.

(** Body of [entries.forEach(entry => ...)] for one entry. *)
Definition on_entry (entry : Entry) (links : list NavLink)
  : Completion * list NavLink :=
  if isIntersecting entry then
    let sectionId := target_id entry in
    let links := clear_active links in
    match css_string (template sectionId) with
    | None => (Throw, links)
    | Some v =>
        match first_with_section v links with
        | Some i => (Normal, alter add_active i links)
        | None => (Normal, links)
        end
    end
  else (Normal, links).

(** The callback given to [new IntersectionObserver]. *)
Fixpoint sectionObserver (entries : list Entry) (links : list NavLink)
  : Completion * list NavLink :=
  match entries with
  | [] => (Normal, links)
  | entry :: rest =>
      match on_entry entry links with
      | (Throw, links') => (Throw, links')
      | (Normal, links') => sectionObserver rest links'
      end
  end.

End Observer.

(** A reader for ids that need no escaping inside a quoted CSS string (no
    double quote, backslash or line break): such an id is read back as it
    is. It stands in for the selector parser on the concrete pages below,
    whose ids are all of that kind, and only there: on an id with a
    backslash it answers [None], while the parser reads an escape. *)
Definition needs_escape (a : Ascii.ascii) : bool :=
  let n := Ascii.nat_of_ascii a in
  (n =? 34)%nat || (n =? 92)%nat || (n =? 10)%nat || (n =? 12)%nat
  || (n =? 13)%nat.

Definition plain_css_string (s : string) : option string :=
  if forallb (λ a, negb (needs_escape a)) (String.list_ascii_of_string s)
  then Some s else None.

(** The ids that every selector parser reads back unchanged from between
    the double quotes: those with no double quote, no backslash, no line
    break and no NUL character (which the parser replaces). *)
Definition plain_id (s : string) : bool :=
  forallb (λ a, negb (needs_escape a)
                && negb (Ascii.nat_of_ascii a =? 0)%nat)
    (String.list_ascii_of_string s).

(** Two nav links that both carry [active], as markup can have them. *)
Definition two_active : list NavLink :=
  [ {| data_section := Some "home"; classes := {[ "nav-link"; "active" ]} |};
    {| data_section := Some "about"; classes := {[ "nav-link"; "active" ]} |} ].

Definition leaving_home : list Entry :=
  [ {| isIntersecting := false; target_id := Some "home" |} ].

Definition entering_about : list Entry :=
  [ {| isIntersecting := true; target_id := Some "about" |} ].

(** The entry that comes last among those that are intersecting. *)
Fixpoint last_intersecting (entries : list Entry) : option Entry :=
  match entries with
  | [] => None
  | entry :: rest =>
      match last_intersecting rest with
      | Some later => Some later
      | None => if isIntersecting entry then Some entry else None
      end
  end.

End Nav.

(** ** Timers: [setTimeout], [clearTimeout] and the passing of time *)

Module EventLoop.

Local Open Scope Z_scope.

(** How [setTimeout] reads a delay that is handed to it as a number: as a
    32-bit signed integer. A number outside that range wraps around, so
    that a delay of 2^31 is read as a negative one. *)
Definition long (x : Z) : Z :=
  (x + 2147483648) mod 4294967296 - 2147483648.

Arguments long : simpl never.

Section Timers.

(** [Task] names the callbacks that the script hands to [setTimeout];
    [St] is the state they act on. *)
Context {Task St : Type}.

Record Timer := mkTimer {
  timer_id : nat;                 (* the handle returned by setTimeout *)
  due : Z;                        (* the time at which it fires, in ms *)
  task : Task
}.

(** The pending timers are kept in the order of their registration. *)
Record World := mkWorld {
  now : Z;
  next_id : nat;
  timers : list Timer;
  state : St
}.

Definition set_state (s : St) (w : World) : World :=
  {| now := now w; next_id := next_id w; timers := timers w; state := s |}.

(** [setTimeout(task, delay)], [delay] being the delay as read (see
    [long]; a delay written as a constant below 2^31 is read as it is):
    a negative delay counts as zero. *)
Definition setTimeout (t : Task) (delay : Z) (w : World) : nat * World :=
  let id := next_id w in
  (id, {| now := now w;
          next_id := S id;
          timers := timers w
                    ++ [ {| timer_id := id;
                            due := now w + Z.max 0 delay;
                            task := t |} ];
          state := state w |}).

(** [clearTimeout(handle)]; [None] is [undefined], which clears nothing. *)
Definition clearTimeout (handle : option nat) (w : World) : World :=
  match handle with
  | None => w
  | Some id =>
      {| now := now w;
         next_id := next_id w;
         timers := filter (λ t, timer_id t ≠ id) (timers w);
         state := state w |}
  end.

(** The timer that fires next: the least due time, and among equal due
    times the one registered first; with it, the timers that remain. *)
Fixpoint pop_earliest (l : list Timer) : option (Timer * list Timer) :=
  match l with
  | [] => None
  | t :: rest =>
      match pop_earliest rest with
      | Some (u, rest') =>
          if due u <? due t then Some (u, t :: rest') else Some (t, rest)
      | None => Some (t, rest)
      end
  end.

Variable run_task : Task → World → World.

(** Fire the next timer, provided it is due by [horizon]: the clock moves
    to its due time and its callback runs. *)
Definition fire (horizon : Z) (w : World) : option World :=
  match pop_earliest (timers w) with
  | Some (t, rest) =>
      if due t <=? horizon then
        Some (run_task (task t)
                {| now := Z.max (now w) (due t);
                   next_id := next_id w;
                   timers := rest;
                   state := state w |})
      else None
  | None => None
  end.

Fixpoint run_until (fuel : nat) (horizon : Z) (w : World) : World :=
  match fuel with
  | O => w
  | S fuel' =>
      match fire horizon w with
      | Some w' => run_until fuel' horizon w'
      | None => w
      end
  end.

(** [weight t] bounds the number of callbacks that the timer [t] gives
    rise to: itself and the timers its callback registers. *)
Variable weight : Task → nat.

Definition pending_weight (l : list Timer) : nat :=
  list_sum (map (λ t, weight (task t)) l).

(** Let time pass until [horizon]: every timer due by then fires, in
    order, and the clock ends at [horizon]. *)
Definition advance_to (horizon : Z) (w : World) : World :=
  let w' := run_until (pending_weight (timers w)) horizon w in
  {| now := Z.max (now w') horizon;
     next_id := next_id w';
     timers := timers w';
     state := state w' |}.

(** No timer is due by [horizon]. *)
Definition quiet (horizon : Z) (l : list Timer) : Prop :=
  Forall (λ t, horizon < due t) l.

End Timers.

Arguments Timer : clear implicits.
Arguments World : clear implicits.

End EventLoop.

(** ** Strings: [trim] and regular expressions *)

Module JsString.

Local Open Scope N_scope.

(** A string is a sequence of UTF-16 code units. *)
Abbreviation jsstring := (list N).

(** White space and line terminators: what [trim] strips and what [\s]
    matches. *)
Definition is_space (c : N) : bool :=
  (c =? 0x9) || (c =? 0xA) || (c =? 0xB) || (c =? 0xC) || (c =? 0xD)
  || (c =? 0x20) || (c =? 0xA0) || (c =? 0x1680)
  || ((0x2000 <=? c) && (c <=? 0x200A))
  || (c =? 0x2028) || (c =? 0x2029) || (c =? 0x202F) || (c =? 0x205F)
  || (c =? 0x3000) || (c =? 0xFEFF).

Fixpoint trimStart (s : jsstring) : jsstring :=
  match s with
  | [] => []
  | c :: rest => if is_space c then trimStart rest else s
  end.

Definition trimEnd (s : jsstring) : jsstring := rev (trimStart (rev s)).

Definition trim (s : jsstring) : jsstring := trimEnd (trimStart s).

(** [!s] for a string: true exactly for the empty string. *)
Definition js_not (s : jsstring) : bool :=
  match s with [] => true | _ :: _ => false end.

(** Regular expressions, as far as the script uses them. *)
Inductive regex : Type :=
| Never
| Eps
| Class (p : N → bool)
| Cat (r1 r2 : regex)
| Alt (r1 r2 : regex)
| Star (r : regex).

(** [r+] and a literal character *)
Definition Plus (r : regex) : regex := Cat r (Star r).
Definition Chr (c : N) : regex := Class (N.eqb c).

Fixpoint nullable (r : regex) : bool :=
  match r with
  | Never => false
  | Eps => true
  | Class _ => false
  | Cat r1 r2 => nullable r1 && nullable r2
  | Alt r1 r2 => nullable r1 || nullable r2
  | Star _ => true
  end.

Fixpoint deriv (c : N) (r : regex) : regex :=
  match r with
  | Never => Never
  | Eps => Never
  | Class p => if p c then Eps else Never
  | Cat r1 r2 =>
      if nullable r1 then Alt (Cat (deriv c r1) r2) (deriv c r2)
      else Cat (deriv c r1) r2
  | Alt r1 r2 => Alt (deriv c r1) (deriv c r2)
  | Star r1 => Cat (deriv c r1) (Star r1)
  end.

(** Does [r] match the whole of [s]? *)
Fixpoint matches (r : regex) (s : jsstring) : bool :=
  match s with
  | [] => nullable r
  | c :: rest => matches (deriv c r) rest
  end.

(** [/^r$/.test(s)] *)
Definition test (r : regex) (s : jsstring) : bool := matches r s.

(** [[^\s@]] *)
Definition not_space_not_at (c : N) : bool := negb (is_space c || (c =? 64)).

(** [/^[^\s@]+@[^\s@]+\.[^\s@]+$/] *)
Definition emailRegex : regex :=
  Cat (Plus (Class not_space_not_at))
   (Cat (Chr 64)
     (Cat (Plus (Class not_space_not_at))
       (Cat (Chr 46)
         (Plus (Class not_space_not_at))))).

(** The words matched by a regular expression. *)
Inductive lang : regex → jsstring → Prop :=
| lang_eps : lang Eps []
| lang_class p c : p c = true → lang (Class p) [c]
| lang_cat r1 r2 s1 s2 :
    lang r1 s1 → lang r2 s2 → lang (Cat r1 r2) (s1 ++ s2)
| lang_alt_l r1 r2 s : lang r1 s → lang (Alt r1 r2) s
| lang_alt_r r1 r2 s : lang r2 s → lang (Alt r1 r2) s
| lang_star_nil r : lang (Star r) []
| lang_star_more r s1 s2 :
    lang r s1 → lang (Star r) s2 → lang (Star r) (s1 ++ s2).

(** The shape [local@domain.tld] in words: one or more characters that are
    neither white space nor [@], then [@], then one or more such
    characters, then a dot, then one or more such characters. *)
Definition word (s : jsstring) : Prop :=
  s ≠ [] ∧ Forall (λ c, is_space c = false ∧ c ≠ 64) s.

Definition local_at_domain_tld (s : jsstring) : Prop :=
  ∃ l d t, s = l ++ 64 :: d ++ 46 :: t ∧ word l ∧ word d ∧ word t.

End JsString.

(** ** Contact form handling *)

Module ContactForm.

Import EventLoop JsString.

Local Open Scope Z_scope.

(** The form as the script sees it: the [value] of the four fields, the
    submit button and the message area. *)
Record Form := mkForm {
  fullName : jsstring;
  email : jsstring;
  subject : jsstring;
  message : jsstring;
  submitBtn_disabled : bool;
  submitBtn_textContent : string;
  formMessage_textContent : string;
  formMessage_className : string
}.

(** The two callbacks that the form code gives to [setTimeout]. *)
Inductive Task :=
| HideMessage                       (* formMessage.className = 'form-message' *)
| CompleteSubmission.               (* the simulated submission coming back *)

Abbreviation Page := (World Task Form).

Definition set_formMessage (text className : string) (f : Form) : Form :=
  {| fullName := fullName f; email := email f; subject := subject f;
     message := message f;
     submitBtn_disabled := submitBtn_disabled f;
     submitBtn_textContent := submitBtn_textContent f;
     formMessage_textContent := text;
     formMessage_className := className |}.

Definition set_submitBtn (disabled : bool) (text : string) (f : Form) : Form :=
  {| fullName := fullName f; email := email f; subject := subject f;
     message := message f;
     submitBtn_disabled := disabled;
     submitBtn_textContent := text;
     formMessage_textContent := formMessage_textContent f;
     formMessage_className := formMessage_className f |}.

Definition clear_fields (f : Form) : Form :=
  {| fullName := []; email := []; subject := []; message := [];
     submitBtn_disabled := submitBtn_disabled f;
     submitBtn_textContent := submitBtn_textContent f;
     formMessage_textContent := formMessage_textContent f;
     formMessage_className := formMessage_className f |}.

Definition showFormMessage (msg type : string) (w : Page) : Page :=
  let w := set_state (set_formMessage msg ("form-message " +:+ type) (state w)) w in
  (* Hide message after 5 seconds *)
  snd (setTimeout HideMessage 5000 w).

Definition run_task (t : Task) (w : Page) : Page :=
  match t with
  | HideMessage =>
      set_state (set_formMessage (formMessage_textContent (state w))
                   "form-message" (state w)) w
  | CompleteSubmission =>
      (* Reset form *)
      let w := set_state (clear_fields (state w)) w in
      (* Show success message *)
      let w := showFormMessage
                 "Message sent successfully! I'll get back to you soon."
                 "success" w in
      (* Re-enable submit button *)
      set_state (set_submitBtn false "Send Message" (state w)) w
  end.

Definition handleFormSubmit (w : Page) : Page :=
  (* Get form values *)
  let fullName := trim (fullName (state w)) in
  let email := trim (email (state w)) in
  let subject := trim (subject (state w)) in
  let message := trim (message (state w)) in
  (* Validate inputs *)
  if js_not fullName || js_not email || js_not subject || js_not message then
    showFormMessage "Please fill in all fields." "error" w
  else
    (* Validate email format *)
    if negb (test emailRegex email) then
      showFormMessage "Please enter a valid email address." "error" w
    else
      (* Disable submit button during submission *)
      let w := set_state (set_submitBtn true "Sending..." (state w)) w in
      (* Simulate form submission *)
      snd (setTimeout CompleteSubmission 2000 w).

Definition weight (t : Task) : nat :=
  match t with
  | HideMessage => 1
  | CompleteSubmission => 2
  end.

(** Time passing on the page. *)
Definition advance_to (horizon : Z) (w : Page) : Page :=
  EventLoop.advance_to run_task weight horizon w.

(** The message area shows its text while its class is not the bare
    [form-message]. *)
Definition message_shown (f : Form) : bool :=
  negb (String.eqb (formMessage_className f) "form-message").

(** The four fields hold the values of [f]. *)
Definition same_fields (f g : Form) : Prop :=
  fullName g = fullName f ∧ email g = email f ∧
  subject g = subject f ∧ message g = message f.

Definition same_submitBtn (f g : Form) : Prop :=
  submitBtn_disabled g = submitBtn_disabled f ∧
  submitBtn_textContent g = submitBtn_textContent f.

(** What [showFormMessage] leaves behind: the message and its class in
    place, one more timer that hides it 5000 ms later, all else as it
    was. *)
Definition message_posted (msg className : string) (w w' : Page) : Prop :=
  formMessage_textContent (state w') = msg ∧
  formMessage_className (state w') = className ∧
  same_fields (state w) (state w') ∧
  same_submitBtn (state w) (state w') ∧
  now w' = now w ∧
  timers w' = timers w ++ [ {| timer_id := next_id w;
                               due := now w + 5000;
                               task := HideMessage |} ].

(** The state in which a completed submission leaves the form. *)
Definition submission_completed (f : Form) : Prop :=
  fullName f = [] ∧ email f = [] ∧ subject f = [] ∧ message f = [] ∧
  formMessage_textContent f
    = "Message sent successfully! I'll get back to you soon." ∧
  formMessage_className f = "form-message success" ∧
  submitBtn_disabled f = false ∧
  submitBtn_textContent f = "Send Message".

(** Text typed on an ASCII keyboard, as code units. *)
Definition typed (s : string) : jsstring :=
  map Ascii.N_of_ascii (String.list_ascii_of_string s).

(** The page before anything was typed or sent. *)
Definition blank : Page :=
  {| now := 0; next_id := 1; timers := [];
     state := {| fullName := []; email := []; subject := []; message := [];
                 submitBtn_disabled := false;
                 submitBtn_textContent := "Send Message";
                 formMessage_textContent := "";
                 formMessage_className := "form-message" |} |}.

Definition fill (name mail subj msg : string) (w : Page) : Page :=
  set_state {| fullName := typed name; email := typed mail;
               subject := typed subj; message := typed msg;
               submitBtn_disabled := submitBtn_disabled (state w);
               submitBtn_textContent := submitBtn_textContent (state w);
               formMessage_textContent := formMessage_textContent (state w);
               formMessage_className := formMessage_className (state w) |} w.

(** The form filled in with an address that lacks its dot, and sent at
    time 0 and again at time 4000. *)
Definition sent_twice : Page :=
  handleFormSubmit
    (advance_to 4000
       (handleFormSubmit (fill "Ada" "ada@example" "Hi" "Hello" blank))).

(** A field that holds nothing but white space (or nothing at all). *)
Definition blank_field (s : jsstring) : Prop :=
  Forall (λ c, is_space c = true) s.

(** The page once the message of a completed submission has been hidden
    again. *)
Definition submission_over (f : Form) : Prop :=
  fullName f = [] ∧ email f = [] ∧ subject f = [] ∧ message f = [] ∧
  formMessage_className f = "form-message" ∧
  submitBtn_disabled f = false ∧
  submitBtn_textContent f = "Send Message".

End ContactForm.

(** ** Performance helpers: [debounce] and [throttle] *)

Module RateLimit.

Import EventLoop.

Local Open Scope Z_scope.

(** What is known of the wrapped function [func]: [A] is what one call
    hands to it (the arguments, and [this] for [throttle]), [U] is what it
    acts upon. Every invocation is also written down with its time. *)
Record Observed (A U : Type) := mkObserved {
  user : U;
  invocations : list (Z * A)
}.

Arguments mkObserved {A U}.
Arguments user {A U}.
Arguments invocations {A U}.

Definition invoke {A U} (func : A → U → U) (time : Z) (args : A)
    (o : Observed A U) : Observed A U :=
  {| user := func args (user o);
     invocations := invocations o ++ [ (time, args) ] |}.

(** How a call of [func] ends: it returns or it throws, and either way it
    may have acted on [U] before. *)
Inductive Outcome (U : Type) :=
| Returns (u : U)
| Throws (u : U).

Arguments Returns {U}.
Arguments Throws {U}.

Definition after {U} (outcome : Outcome U) : U :=
  match outcome with
  | Returns u => u
  | Throws u => u
  end.

(** An invocation written down together with what it left of [U]. *)
Definition noted {A U} (time : Z) (args : A) (u : U) (o : Observed A U)
  : Observed A U :=
  {| user := u; invocations := invocations o ++ [ (time, args) ] |}.

(** A function that always returns. *)
Definition returning {A U} (f : A → U → U) : A → U → Outcome U :=
  λ args u, Returns (f args u).

(** The call after which no other call comes. *)
Fixpoint final_call {A} (first : Z * A) (rest : list (Z * A)) : Z * A :=
  match rest with
  | [] => first
  | next :: rest' => final_call next rest'
  end.

(** Calls made one after the other in one task of the event loop (one run
    of an event handler), at [b_time]: no timer fires between them. *)
Record Burst (A : Type) := mkBurst {
  b_time : Z;
  b_first : A;
  b_others : list A
}.

Arguments mkBurst {A}.
Arguments b_time {A}.
Arguments b_first {A}.
Arguments b_others {A}.

Section Debounce.

Context {A U : Type}.
Variable func : A → U → U.
Variable wait : Z.

(** The closure of [debounce(func, wait)]: its variable [timeout]. *)
Record Debounced := mkDebounced {
  timeout : option nat;           (* let timeout: undefined at first *)
  d_seen : Observed A U
}.

(** [later], which remembers the arguments of the call that made it. *)
Inductive DTask := Later (args : A).

Definition later (args : A) (w : World DTask Debounced)
  : World DTask Debounced :=
  let w := clearTimeout (timeout (state w)) w in
  set_state {| timeout := timeout (state w);
               d_seen := invoke func (now w) args (d_seen (state w)) |} w.

Definition d_run_task (t : DTask) (w : World DTask Debounced)
  : World DTask Debounced :=
  match t with Later args => later args w end.

(** [wait] comes from the caller of [debounce]: [setTimeout] reads it as a
    32-bit integer. *)
Definition executedFunction (args : A) (w : World DTask Debounced)
  : World DTask Debounced :=
  let w := clearTimeout (timeout (state w)) w in
  let (id, w) := setTimeout (Later args) (long wait) w in
  set_state {| timeout := Some id; d_seen := d_seen (state w) |} w.

Definition d_weight (t : DTask) : nat := 1.

Definition d_advance_to (horizon : Z) (w : World DTask Debounced)
  : World DTask Debounced :=
  advance_to d_run_task d_weight horizon w.

(** The calls of a sequence, each in a task of its own that runs when the
    timers due by its time have fired. *)
Fixpoint d_calls (calls : list (Z * A)) (w : World DTask Debounced)
  : World DTask Debounced :=
  match calls with
  | [] => w
  | (t, args) :: rest => d_calls rest (executedFunction args (d_advance_to t w))
  end.

(** The calls of one task: time passes before the first of them only. *)
Definition d_burst (b : Burst A) (w : World DTask Debounced)
  : World DTask Debounced :=
  fold_left (λ w args, executedFunction args w) (b_others b)
    (executedFunction (b_first b) (d_advance_to (b_time b) w)).

Fixpoint d_bursts (bursts : list (Burst A)) (w : World DTask Debounced)
  : World DTask Debounced :=
  match bursts with
  | [] => w
  | b :: rest => d_bursts rest (d_burst b w)
  end.

(** The world in which [debounce(func, wait)] has just returned, at time
    [t0]: [timeout] is undefined and nothing is pending. *)
Definition debounce_init (t0 : Z) (u : U) : World DTask Debounced :=
  {| now := t0; next_id := 1; timers := [];
     state := {| timeout := None;
                 d_seen := {| user := u; invocations := [] |} |} |}.

(** The one pending timer is that of the latest call, made at [t] with
    [args]; [func] has not been invoked yet. *)
Definition armed (u : U) (t : Z) (args : A)
    (w : World DTask Debounced) : Prop :=
  now w = t ∧
  d_seen (state w) = {| user := u; invocations := [] |} ∧
  ∃ id, timeout (state w) = Some id ∧
        timers w = [ {| timer_id := id; due := t + wait;
                        task := Later args |} ].

(** Nothing is pending, or one timer is and [timeout] holds its handle. *)
Definition one_pending (w : World DTask Debounced) : Prop :=
  timers w = [] ∨
  ∃ id due args, timeout (state w) = Some id ∧
                 timers w = [ {| timer_id := id; due := due;
                                 task := Later args |} ].

End Debounce.

Section Throttle.

Context {A U : Type}.
Variable func : A → U → Outcome U.
Variable limit : Z.

(** The closure of [throttle(func, limit)]: its variable [inThrottle]. *)
Record Throttled := mkThrottled {
  inThrottle : bool;              (* let inThrottle: undefined, falsy *)
  t_seen : Observed A U
}.

(** [() => inThrottle = false] *)
Inductive TTask := Release.

Definition t_run_task (t : TTask) (w : World TTask Throttled)
  : World TTask Throttled :=
  match t with
  | Release => set_state {| inThrottle := false;
                            t_seen := t_seen (state w) |} w
  end.

(** When [func.apply(this, args)] throws, the exception leaves the wrapper
    before [inThrottle = true] and before the timer is set. [limit] comes
    from the caller of [throttle]: [setTimeout] reads it as a 32-bit
    integer. *)
Definition throttled (args : A) (w : World TTask Throttled)
  : World TTask Throttled :=
  if negb (inThrottle (state w)) then
    let outcome := func args (user (t_seen (state w))) in
    let w := set_state {| inThrottle := inThrottle (state w);
                          t_seen := noted (now w) args (after outcome)
                                      (t_seen (state w)) |} w in
    match outcome with
    | Throws _ => w
    | Returns _ =>
        let w := set_state {| inThrottle := true;
                              t_seen := t_seen (state w) |} w in
        snd (setTimeout Release (long limit) w)
    end
  else w.

Definition t_weight (t : TTask) : nat := 1.

Definition t_advance_to (horizon : Z) (w : World TTask Throttled)
  : World TTask Throttled :=
  advance_to t_run_task t_weight horizon w.

(** The calls of a sequence, each in a task of its own that runs when the
    timers due by its time have fired. *)
Fixpoint t_calls (calls : list (Z * A)) (w : World TTask Throttled)
  : World TTask Throttled :=
  match calls with
  | [] => w
  | (t, args) :: rest => t_calls rest (throttled args (t_advance_to t w))
  end.

(** The calls of one task: time passes before the first of them only. *)
Definition t_burst (b : Burst A) (w : World TTask Throttled)
  : World TTask Throttled :=
  fold_left (λ w args, throttled args w) (b_first b :: b_others b)
    (t_advance_to (b_time b) w).

Fixpoint t_bursts (bursts : list (Burst A)) (w : World TTask Throttled)
  : World TTask Throttled :=
  match bursts with
  | [] => w
  | b :: rest => t_bursts rest (t_burst b w)
  end.

(** The world in which [throttle(func, limit)] has just returned, at
    time [t0]. *)
Definition throttle_init (t0 : Z) (u : U) : World TTask Throttled :=
  {| now := t0; next_id := 1; timers := [];
     state := {| inThrottle := false;
                 t_seen := {| user := u; invocations := [] |} |} |}.


(** Calls go through. *)
Definition free (seen : Observed A U) (w : World TTask Throttled) : Prop :=
  inThrottle (state w) = false ∧ timers w = [] ∧ t_seen (state w) = seen.

(** Calls are held back until the one timer sets them free at [release]. *)
Definition holding (seen : Observed A U) (release : Z)
    (w : World TTask Throttled) : Prop :=
  inThrottle (state w) = true ∧
  t_seen (state w) = seen ∧
  ∃ id, timers w = [ {| timer_id := id; due := release; task := Release |} ].

(** What a closure that is free makes of the calls of one task at [t]:
    each call is passed on until one of them returns; [true] says that one
    did, so that calls are held from then on. *)
Fixpoint pass_burst (t : Z) (argss : list A) (o : Observed A U)
  : Observed A U * bool :=
  match argss with
  | [] => (o, false)
  | args :: rest =>
      match func args (user o) with
      | Returns u => (noted t args u o, true)
      | Throws u => pass_burst t rest (noted t args u o)
      end
  end.

(** Throttling without timers: a task that comes before [release], the
    time at which the hold ends, is dropped whole; any other task is
    passed on as [pass_burst] says and, if one of its calls returned, sets
    the next hold, [delay] long. *)
Fixpoint throttle_passes (delay : Z) (release : option Z)
    (bursts : list (Burst A)) (o : Observed A U) : Observed A U :=
  match bursts with
  | [] => o
  | b :: rest =>
      if match release with Some r => b_time b <? r | None => false end
      then throttle_passes delay release rest o
      else
        let (o', holds) :=
          pass_burst (b_time b) (b_first b :: b_others b) o in
        throttle_passes delay
          (if holds then Some (b_time b + delay) else None) rest o'
  end.

End Throttle.

(** Calls in the order of time, each strictly less than [wait] after the
    one before; [prev] is the time of the call before the first. *)
Fixpoint spaced_within {A} (wait prev : Z) (calls : list (Z * A)) : bool :=
  match calls with
  | [] => true
  | (t, _) :: rest =>
      (prev <=? t) && (t <? prev + wait) && spaced_within wait t rest
  end.


(** A function that keeps what it is given, to watch the wrappers at
    work. *)
Definition keep (args : nat) (kept : list nat) : list nat := args :: kept.


(** The calls that follow a first call made at time 0: one at 100 ms and
    one at 300 ms. *)
Definition further_calls : list (Z * nat) := [ (100, 2%nat); (300, 3%nat) ].

(** Calls in the order of time, none before [prev]. *)
Fixpoint time_ordered {A} (prev : Z) (calls : list (Z * A)) : bool :=
  match calls with
  | [] => true
  | (t, _) :: rest => (prev <=? t) && time_ordered t rest
  end.

(** The time of the last call, [prev] when there is none. *)
Fixpoint last_time {A} (prev : Z) (calls : list (Z * A)) : Z :=
  match calls with
  | [] => prev
  | (t, _) :: rest => last_time t rest
  end.

(** What debouncing lets through: a call is passed on, [wait] later, when
    the next call does not come before then. *)
Fixpoint debounced {A} (wait : Z) (calls : list (Z * A)) : list (Z * A) :=
  match calls with
  | [] => []
  | (t, args) :: rest =>
      match rest with
      | [] => [ (t + wait, args) ]
      | (t', _) :: _ =>
          if t' <? t + wait then debounced wait rest
          else (t + wait, args) :: debounced wait rest
      end
  end.

(** The call of a task that counts for debouncing: its last one. *)
Definition last_call {A} (b : Burst A) : Z * A :=
  (b_time b, default (b_first b) (last (b_others b))).

(** No call comes at the very time at which the call before it falls due:
    which of the two runs first is then for the event loop to choose. *)
Fixpoint untied {A} (wait : Z) (calls : list (Z * A)) : bool :=
  match calls with
  | [] => true
  | (t, _) :: rest =>
      match rest with
      | [] => true
      | (t', _) :: _ => negb (t' =? t + wait) && untied wait rest
      end
  end.

(** Tasks in the order of time, none before [prev]. *)
Fixpoint bursts_ordered {A} (prev : Z) (bursts : list (Burst A)) : bool :=
  match bursts with
  | [] => true
  | b :: rest => (prev <=? b_time b) && bursts_ordered (b_time b) rest
  end.

(** No task comes exactly [delay] after an earlier task, that is at the
    very time at which a hold set by that task would end. *)
Fixpoint apart {A} (delay : Z) (bursts : list (Burst A)) : bool :=
  match bursts with
  | [] => true
  | b :: rest =>
      forallb (λ b', negb (b_time b' =? b_time b + delay)) rest
      && apart delay rest
  end.

(** [func] invoked for each of [passed], in order. *)
Definition replay {A U} (func : A → U → U) (passed : list (Z * A))
    (o : Observed A U) : Observed A U :=
  fold_left (λ o c, invoke func (fst c) (snd c) o) passed o.

Section DebounceStates.

Context {A U : Type}.
Variable wait : Z.

(** Nothing is pending. *)
Definition settled (seen : Observed A U) (w : World (@DTask A) (@Debounced A U))
  : Prop :=
  timers w = [] ∧ d_seen (state w) = seen.

(** The call made at [t] with [args] is waiting for its time. *)
Definition waiting (seen : Observed A U) (t : Z) (args : A)
    (w : World (@DTask A) (@Debounced A U)) : Prop :=
  now w = t ∧
  d_seen (state w) = seen ∧
  ∃ id, timeout (state w) = Some id ∧
        timers w = [ {| timer_id := id; due := t + wait;
                        task := Later args |} ].

End DebounceStates.

End RateLimit.

(** ** Mobile menu *)

Module Menu.

Local Open Scope Z_scope.

(** [classList.toggle(c)]: remove [c] when present, add it when absent. *)
Definition classList_toggle (c : string) (cl : gset string) : gset string :=
  if classList_contains c cl then classList_remove c cl
  else classList_add c cl.

(** The menu is open or closed by what two class lists hold. *)
Record State := mkState {
  navbar : gset string;             (* #navbar classList *)
  menuIcon : gset string            (* #menu-icon classList *)
}.

(** The listener on the menu icon. *)
Definition menuIcon_click (s : State) : State :=
  {| navbar := classList_toggle "active" (navbar s);
     menuIcon := classList_toggle "bx-x" (menuIcon s) |}.

(** The listener on every nav link. *)
Definition navLink_click (s : State) : State :=
  {| navbar := classList_remove "active" (navbar s);
     menuIcon := classList_remove "bx-x" (menuIcon s) |}.

(** The listener on the document; the two booleans are
    [navbar.contains(e.target)] and [menuIcon.contains(e.target)]. *)
Definition document_click (navbar_contains menuIcon_contains : bool)
    (s : State) : State :=
  if negb navbar_contains && negb menuIcon_contains then
    {| navbar := classList_remove "active" (navbar s);
       menuIcon := classList_remove "bx-x" (menuIcon s) |}
  else s.

(** The listener on [keydown]; [key] is [e.key]. *)
Definition document_keydown (key : string) (s : State) : State :=
  if String.eqb key "Escape" && classList_contains "active" (navbar s) then
    {| navbar := classList_remove "active" (navbar s);
       menuIcon := classList_remove "bx-x" (menuIcon s) |}
  else s.

(** The function that [handleResize] debounces; it reads
    [window.innerWidth] when it runs. *)
Definition resize_settled (innerWidth : Z) (s : State) : State :=
  if innerWidth >? 768 then
    {| navbar := classList_remove "active" (navbar s);
       menuIcon := classList_remove "bx-x" (menuIcon s) |}
  else s.

(** Where a click lands. A click bubbles from its target up to the
    document, so the listener of the icon or of a nav link runs first and
    the listener of the document last. A target that lies inside the icon
    and inside a nav link at once is left out. *)
Inductive Target :=
| OnMenuIcon (in_navbar : bool)
| OnNavLink (in_navbar : bool)
| Elsewhere (in_navbar : bool).

Definition click (t : Target) (s : State) : State :=
  match t with
  | OnMenuIcon in_navbar => document_click in_navbar true (menuIcon_click s)
  | OnNavLink in_navbar => document_click in_navbar false (navLink_click s)
  | Elsewhere in_navbar => document_click in_navbar false s
  end.

Inductive Event :=
| Click (t : Target)
| Keydown (key : string)
| ResizeSettled (innerWidth : Z).

Definition handle (e : Event) (s : State) : State :=
  match e with
  | Click t => click t s
  | Keydown key => document_keydown key s
  | ResizeSettled innerWidth => resize_settled innerWidth s
  end.

Fixpoint run (events : list Event) (s : State) : State :=
  match events with
  | [] => s
  | e :: rest => run rest (handle e s)
  end.

(** The navbar is shown open exactly when the icon shows the cross. *)
Definition in_sync (s : State) : Prop :=
  "active" ∈ navbar s ↔ "bx-x" ∈ menuIcon s.

Definition is_open (s : State) : bool := classList_contains "active" (navbar s).

Definition is_closed (s : State) : Prop :=
  ("active" ∉ navbar s) ∧ ("bx-x" ∉ menuIcon s).

(** The events written to close the menu: a click on a nav link, a click
    outside the navbar and the icon, the Escape key, and a resize that
    settles above 768. *)
Definition closes (e : Event) : bool :=
  match e with
  | Click (OnMenuIcon _) => false
  | Click (OnNavLink _) => true
  | Click (Elsewhere in_navbar) => negb in_navbar
  | Keydown key => String.eqb key "Escape"
  | ResizeSettled innerWidth => innerWidth >? 768
  end.

End Menu.

(** ** Typing effect *)

Module Typing.

Import JsString.

Local Open Scope Z_scope.

(** [s.substring(0, end)]: an end below zero counts as zero, an end past
    the string as its length. *)
Definition substring0 (end_ : Z) (s : jsstring) : jsstring :=
  take (Z.to_nat end_) s.

(** The variables of [createTypingEffect] and the text of the subtitle. *)
Record State := mkState {
  titleIndex : nat;
  charIndex : Z;
  isDeleting : bool;
  typingSpeed : Z;
  textContent : jsstring            (* heroSubtitle.textContent *)
}.

(** The state in which [createTypingEffect] leaves its variables; the
    subtitle holds the text of the markup. *)
Definition start (text : jsstring) : State :=
  {| titleIndex := 0; charIndex := 0; isDeleting := false;
     typingSpeed := 150; textContent := text |}.

Section Effect.

Variable titles : list jsstring.

(** One run of [type], up to its call of [setTimeout(type, typingSpeed)]:
    the next run comes [typingSpeed] later. [None] stands for the
    TypeError raised when [titles[titleIndex]] is undefined. *)
Definition type (s : State) : option State :=
  match titles !! titleIndex s with
  | None => None
  | Some currentTitle =>
      let s :=
        if isDeleting s then
          {| titleIndex := titleIndex s;
             charIndex := charIndex s - 1;
             isDeleting := isDeleting s;
             typingSpeed := 50;
             textContent := substring0 (charIndex s - 1) currentTitle |}
        else
          {| titleIndex := titleIndex s;
             charIndex := charIndex s + 1;
             isDeleting := isDeleting s;
             typingSpeed := 150;
             textContent := substring0 (charIndex s + 1) currentTitle |} in
      Some
        (if negb (isDeleting s)
            && (charIndex s =? Z.of_nat (length currentTitle)) then
           {| titleIndex := titleIndex s;
              charIndex := charIndex s;
              isDeleting := true;
              typingSpeed := 2000;      (* Pause at end *)
              textContent := textContent s |}
         else if isDeleting s && (charIndex s =? 0) then
           {| titleIndex := (titleIndex s + 1) mod length titles;
              charIndex := charIndex s;
              isDeleting := false;
              typingSpeed := 500;       (* Pause before starting new word *)
              textContent := textContent s |}
         else s)
  end.

(** [n] runs of [type] in a row. *)
Fixpoint types (n : nat) (s : State) : option State :=
  match n with
  | O => Some s
  | S n' =>
      match type s with
      | Some s' => types n' s'
      | None => None
      end
  end.

(** The time that [n] runs take: each run waits [typingSpeed] before the
    next. *)
Fixpoint elapsed (n : nat) (s : State) : Z :=
  match n with
  | O => 0
  | S n' =>
      match type s with
      | Some s' => typingSpeed s' + elapsed n' s'
      | None => 0
      end
  end.

(** The variables are in step with the title being typed or deleted. *)
Definition in_step (s : State) : Prop :=
  ∃ title, titles !! titleIndex s = Some title ∧
    if isDeleting s
    then 1 ≤ charIndex s ≤ Z.of_nat (length title)
    else 0 ≤ charIndex s < Z.of_nat (length title).

(** The subtitle shows the first [charIndex] characters of the current
    title. *)
Definition shows_prefix (s : State) : Prop :=
  ∃ title, titles !! titleIndex s = Some title ∧
           textContent s = substring0 (charIndex s) title.

End Effect.

(** The titles of the page. *)
Definition titles : list jsstring :=
  [ ContactForm.typed "Full Stack Software Engineer";
    ContactForm.typed "Web Developer";
    ContactForm.typed "UI/UX Designer";
    ContactForm.typed "Problem Solver" ].

End Typing.

(** ** Scroll animations *)

Module Reveal.

Import EventLoop.

Local Open Scope Z_scope.

(** The three inline style properties that the animation code writes. *)
Record Style := mkStyle {
  opacity : string;
  transform : string;
  transition : string
}.

(** The elements selected by [animateOnScroll], by their position in the
    list [elements], and those that [animationObserver] watches. *)
Record Dom := mkDom {
  styles : list Style;
  observed : gset nat
}.

(** An IntersectionObserverEntry: [entry.isIntersecting] and the position
    of [entry.target] in [elements]. *)
Record Entry := mkEntry {
  isIntersecting : bool;
  target : nat
}.

(** The callback handed to [setTimeout]: it shows [entry.target]. *)
Inductive Task := Show (target : nat).

Definition show (st : Style) : Style :=
  {| opacity := "1"; transform := "translateY(0)";
     transition := transition st |}.

Definition run_task (t : Task) (w : World Task Dom) : World Task Dom :=
  match t with
  | Show x =>
      set_state {| styles := alter show x (styles (state w));
                   observed := observed (state w) |} w
  end.

Definition weight (t : Task) : nat := 1.

Definition advance_to (horizon : Z) (w : World Task Dom) : World Task Dom :=
  EventLoop.advance_to run_task weight horizon w.

(** [entries.forEach((entry, index) => ...)], from position [index] on. *)
Fixpoint forEach_entry (index : nat) (entries : list Entry)
    (w : World Task Dom) : World Task Dom :=
  match entries with
  | [] => w
  | entry :: rest =>
      let w :=
        if isIntersecting entry then
          let w := snd (setTimeout (Show (target entry))
                          (Z.of_nat index * 100) w) in
          (* animationObserver.unobserve(entry.target) *)
          set_state {| styles := styles (state w);
                       observed := observed (state w) ∖ {[ target entry ]} |} w
        else w in
      forEach_entry (S index) rest w
  end.

(** The callback of [animationObserver]. *)
Definition animationObserver (entries : list Entry) (w : World Task Dom)
  : World Task Dom :=
  forEach_entry 0 entries w.

Definition hide (st : Style) : Style :=
  {| opacity := "0"; transform := "translateY(30px)";
     transition := "opacity 0.6s ease, transform 0.6s ease" |}.

(** [animateOnScroll], after the observer is made: every element is hidden
    and watched. *)
Definition animateOnScroll (w : World Task Dom) : World Task Dom :=
  set_state {| styles := map hide (styles (state w));
               observed := observed (state w)
                           ∪ list_to_set (seq 0 (length (styles (state w)))) |} w.

(** The turns that a callback hands out: the delay and the target of each
    intersecting entry, the entries being counted from [index]. *)
Fixpoint turns (index : nat) (entries : list Entry) : list (Z * nat) :=
  match entries with
  | [] => []
  | entry :: rest =>
      (if isIntersecting entry
       then [ (Z.of_nat index * 100, target entry) ] else [])
      ++ turns (S index) rest
  end.

(** The targets whose turn has come when [elapsed] ms have passed. *)
Definition shown_after (elapsed : Z) (entries : list Entry) : list nat :=
  map snd (filter (λ p, fst p ≤ elapsed) (turns 0 entries)).

End Reveal.

(** * Part II: properties *)

(** ** DOMTokenList *)

Lemma contains_true c cl : classList_contains c cl = true ↔ c ∈ cl.
Proof. unfold classList_contains. by rewrite bool_decide_eq_true. Qed.

Lemma contains_false c cl : classList_contains c cl = false ↔ c ∉ cl.
Proof. unfold classList_contains. by rewrite bool_decide_eq_false. Qed.

Lemma contains_add c d cl :
  classList_contains c (classList_add d cl)
  = bool_decide (c = d) || classList_contains c cl.
Proof.
  unfold classList_contains, classList_add.
  destruct (decide (c = d)) as [->|Hne].
  - rewrite bool_decide_eq_true_2 by set_solver.
    by rewrite bool_decide_eq_true_2.
  - rewrite (bool_decide_eq_false_2 (c = d)) by done. simpl.
    apply bool_decide_ext. set_solver.
Qed.

Lemma contains_remove c d cl :
  classList_contains c (classList_remove d cl)
  = negb (bool_decide (c = d)) && classList_contains c cl.
Proof.
  unfold classList_contains, classList_remove.
  destruct (decide (c = d)) as [->|Hne].
  - rewrite (bool_decide_eq_true_2 (d = d)) by done. simpl.
    apply bool_decide_eq_false_2. set_solver.
  - rewrite (bool_decide_eq_false_2 (c = d)) by done. simpl.
    apply bool_decide_ext. set_solver.
Qed.

(** ** Theme toggle *)

Module ThemeFacts.

Import Theme.

Lemma toggleTheme_dark p :
  "dark-mode" ∈ body p →
  toggleTheme p =
    {| body := classList_add "light-mode" (classList_remove "dark-mode" (body p));
       themeIcon := classList_add "bx-sun" (classList_remove "bx-moon" (themeIcon p));
       localStorage := setItem "theme" "light" (localStorage p) |}.
Proof.
  intros H. unfold toggleTheme.
  by rewrite (proj2 (contains_true _ _) H).
Qed.

Lemma toggleTheme_not_dark p :
  "dark-mode" ∉ body p →
  toggleTheme p =
    {| body := classList_add "dark-mode" (classList_remove "light-mode" (body p));
       themeIcon := classList_add "bx-moon" (classList_remove "bx-sun" (themeIcon p));
       localStorage := setItem "theme" "dark" (localStorage p) |}.
Proof.
  intros H. unfold toggleTheme.
  by rewrite (proj2 (contains_false _ _) H).
Qed.

Lemma add_remove_swap (a b : string) (cl : gset string) :
  a ∈ cl → b ∉ cl →
  classList_add a (classList_remove b (classList_add b (classList_remove a cl))) = cl.
Proof.
  unfold classList_add, classList_remove. intros Ha Hb.
  apply set_eq. intros x.
  destruct (decide (x = a)) as [Hxa|Hxa]; destruct (decide (x = b)) as [Hxb|Hxb];
    subst; set_solver.
Qed.

Lemma setItem_back (k v v' : string) (store : gmap string string) :
  getItem k store = Some v → setItem k v (setItem k v' store) = store.
Proof.
  unfold getItem, setItem. intros H.
  rewrite insert_insert_eq. by apply insert_id.
Qed.

(** C1 (as amended): from a page that shows one theme consistently, two
    toggles in a row restore the body classes, the icon classes and the
    stored preference. *)
Theorem toggleTheme_twice_consistent (p : Page) :
  consistent p → toggleTheme (toggleTheme p) = p.
Proof.
  intros [(Hd & Hl & Hm & Hs & Hst) | (Hl & Hd & Hs & Hm & Hst)].
  - rewrite (toggleTheme_dark p Hd).
    rewrite toggleTheme_not_dark;
      [| simpl; unfold classList_add, classList_remove; set_solver ].
    destruct p as [b i st]; simpl in *.
    rewrite (add_remove_swap "dark-mode" "light-mode" b Hd Hl).
    rewrite (add_remove_swap "bx-moon" "bx-sun" i Hm Hs).
    by rewrite (setItem_back "theme" "dark" "light" st Hst).
  - rewrite (toggleTheme_not_dark p Hd).
    rewrite toggleTheme_dark;
      [| simpl; unfold classList_add, classList_remove; set_solver ].
    destruct p as [b i st]; simpl in *.
    rewrite (add_remove_swap "light-mode" "dark-mode" b Hl Hd).
    rewrite (add_remove_swap "bx-sun" "bx-moon" i Hs Hm).
    by rewrite (setItem_back "theme" "light" "dark" st Hst).
Qed.

(** Two toggles restore the page only from a consistent page. *)
Lemma toggleTheme_twice_only_consistent (p : Page) :
  toggleTheme (toggleTheme p) = p → consistent p.
Proof.
  destruct (decide ("dark-mode" ∈ body p)) as [Hd|Hd].
  - rewrite (toggleTheme_dark p Hd).
    rewrite toggleTheme_not_dark;
      [| simpl; unfold classList_add, classList_remove; set_solver ].
    destruct p as [b i st]; simpl in *. intros Heq.
    injection Heq as Hb Hi Hst. left. unfold shows_dark; simpl.
    unfold classList_add, classList_remove in *.
    split_and!; [done | set_solver.. |].
    unfold getItem, setItem in *. rewrite <- Hst. apply lookup_insert_eq.
  - rewrite (toggleTheme_not_dark p Hd).
    rewrite toggleTheme_dark;
      [| simpl; unfold classList_add, classList_remove; set_solver ].
    destruct p as [b i st]; simpl in *. intros Heq.
    injection Heq as Hb Hi Hst. right. unfold shows_light; simpl.
    unfold classList_add, classList_remove in *.
    split_and!; [set_solver | done | set_solver.. |].
    unfold getItem, setItem in *. rewrite <- Hst. apply lookup_insert_eq.
Qed.

Lemma toggleTheme_twice_consistent_witness :
  let p := {| body := {[ "dark-mode" ]}; themeIcon := {[ "bx-moon" ]};
              localStorage := {[ "theme" := "dark" ]} |} in
  consistent p ∧ toggleTheme (toggleTheme p) = p.
Proof.
  intros p.
  assert (Hc : consistent p).
  { left. unfold shows_dark, p, getItem; simpl.
    split_and!; [set_solver.. |]. apply lookup_singleton_eq. }
  split; [exact Hc | exact (toggleTheme_twice_consistent p Hc)].
Defined.

(** C1 (as stated) fails on a first visit: [loadTheme] leaves the body
    with [dark-mode] and nothing stored; after two toggles the classes are
    back but the store holds ["dark"] under ["theme"]. *)
Lemma toggleTheme_twice_first_visit :
  getItem "theme" (localStorage first_visit) = None ∧
  getItem "theme" (localStorage (toggleTheme (toggleTheme first_visit)))
    = Some "dark" ∧
  toggleTheme (toggleTheme first_visit) ≠ first_visit.
Proof.
  assert (Hd : "dark-mode" ∈ body first_visit).
  { unfold first_visit, loadTheme, getItem. simpl.
    unfold classList_add. set_solver. }
  assert (H1 : getItem "theme" (localStorage first_visit) = None).
  { unfold first_visit, loadTheme, getItem. simpl. apply lookup_empty. }
  assert (H2 : getItem "theme"
                 (localStorage (toggleTheme (toggleTheme first_visit)))
               = Some "dark").
  { rewrite (toggleTheme_dark _ Hd).
    rewrite toggleTheme_not_dark;
      [| simpl; unfold classList_add, classList_remove; set_solver ].
    simpl. unfold getItem, setItem. apply lookup_insert_eq. }
  split_and!; [exact H1 | exact H2 |].
  intros Heq. rewrite Heq in H2. congruence.
Qed.

(** C8: with nothing stored under ["theme"], [loadTheme] adds [dark-mode]
    to the body and [bx-moon] to the icon; with ["light"] stored it puts
    [light-mode] and [bx-sun] in place of [dark-mode] and [bx-moon]. It
    never writes to the store. *)
Theorem loadTheme_restores (p : Page) :
  (getItem "theme" (localStorage p) = None →
     body (loadTheme p) = classList_add "dark-mode" (body p) ∧
     themeIcon (loadTheme p) = classList_add "bx-moon" (themeIcon p) ∧
     classList_contains "dark-mode" (body (loadTheme p)) = true ∧
     classList_contains "bx-moon" (themeIcon (loadTheme p)) = true) ∧
  (getItem "theme" (localStorage p) = Some "light" →
     body (loadTheme p)
       = classList_add "light-mode" (classList_remove "dark-mode" (body p)) ∧
     themeIcon (loadTheme p)
       = classList_add "bx-sun" (classList_remove "bx-moon" (themeIcon p)) ∧
     classList_contains "light-mode" (body (loadTheme p)) = true ∧
     classList_contains "dark-mode" (body (loadTheme p)) = false ∧
     classList_contains "bx-sun" (themeIcon (loadTheme p)) = true ∧
     classList_contains "bx-moon" (themeIcon (loadTheme p)) = false) ∧
  localStorage (loadTheme p) = localStorage p.
Proof.
  unfold loadTheme. split; [| split].
  - intros ->. rewrite bool_decide_eq_false_2 by done. simpl.
    rewrite !contains_add. rewrite !bool_decide_eq_true_2 by done. done.
  - intros ->. rewrite bool_decide_eq_true_2 by done. simpl.
    rewrite !contains_add, !contains_remove.
    rewrite !(bool_decide_eq_true_2 (_ = _)) by done.
    rewrite !(bool_decide_eq_false_2 (_ = _)) by done. done.
  - by case_bool_decide.
Qed.

Lemma loadTheme_restores_witness :
  let fresh := {| body := ∅; themeIcon := ∅; localStorage := ∅ |} in
  let light := {| body := ∅; themeIcon := ∅;
                  localStorage := {[ "theme" := "light" ]} |} in
  classList_contains "dark-mode" (body (loadTheme fresh)) = true ∧
  classList_contains "light-mode" (body (loadTheme light)) = true.
Proof.
  intros fresh light. split.
  - apply (proj1 (loadTheme_restores fresh)).
    unfold fresh, getItem; simpl. apply lookup_empty.
  - apply (proj1 (proj2 (loadTheme_restores light))).
    unfold light, getItem; simpl. apply lookup_singleton_eq.
Defined.

(** Whatever the page looked like, one toggle leaves it showing a single
    theme, classes and stored preference in agreement: light when the body
    carried [dark-mode], dark when it did not. *)
Theorem toggleTheme_shows_other (p : Page) :
  ("dark-mode" ∈ body p → shows_light (toggleTheme p)) ∧
  ("dark-mode" ∉ body p → shows_dark (toggleTheme p)).
Proof.
  split; intros Hd.
  - rewrite (toggleTheme_dark p Hd). unfold shows_light; simpl.
    unfold classList_add, classList_remove, getItem, setItem.
    split_and!; [set_solver.. |]. apply lookup_insert_eq.
  - rewrite (toggleTheme_not_dark p Hd). unfold shows_dark; simpl.
    unfold classList_add, classList_remove, getItem, setItem.
    split_and!; [set_solver.. |]. apply lookup_insert_eq.
Qed.

Lemma toggleTheme_shows_other_witness :
  shows_dark (toggleTheme {| body := {[ "light-mode"; "dark-theme" ]};
                             themeIcon := ∅; localStorage := ∅ |}).
Proof.
  apply (proj2 (toggleTheme_shows_other _)). simpl. set_solver.
Defined.

(** The choice made by a toggle survives a reload: on a page whose store
    is the one the toggle left, [loadTheme] puts [dark-mode] and [bx-moon]
    exactly where the toggle had them, whatever classes the markup starts
    with; when the markup carries no theme class the reloaded page shows
    the same theme as before the reload. *)
Theorem loadTheme_after_toggleTheme (p : Page) (markup_body markup_icon : gset string) :
  let reloaded :=
    loadTheme {| body := markup_body; themeIcon := markup_icon;
                 localStorage := localStorage (toggleTheme p) |} in
  classList_contains "dark-mode" (body reloaded)
    = classList_contains "dark-mode" (body (toggleTheme p)) ∧
  classList_contains "bx-moon" (themeIcon reloaded)
    = classList_contains "bx-moon" (themeIcon (toggleTheme p)) ∧
  (("light-mode" ∉ markup_body) → ("bx-sun" ∉ markup_icon) →
     (shows_dark (toggleTheme p) → shows_dark reloaded) ∧
     (shows_light (toggleTheme p) → shows_light reloaded)).
Proof.
  destruct (decide ("dark-mode" ∈ body p)) as [Hd|Hd].
  - rewrite (toggleTheme_dark p Hd). simpl.
    unfold loadTheme, getItem, setItem. simpl.
    rewrite lookup_insert_eq. rewrite bool_decide_eq_true_2 by done. simpl.
    unfold classList_contains, classList_add, classList_remove.
    split_and!; [apply bool_decide_ext; set_solver.. |].
    intros Hl Hs. split.
    + intros (_ & _ & _ & _ & Hst). unfold getItem, setItem in Hst.
      simpl in Hst. rewrite lookup_insert_eq in Hst. discriminate.
    + intros _. unfold shows_light, getItem; simpl.
      unfold classList_add, classList_remove.
      split_and!; [set_solver.. |]. apply lookup_insert_eq.
  - rewrite (toggleTheme_not_dark p Hd). simpl.
    unfold loadTheme, getItem, setItem. simpl.
    rewrite lookup_insert_eq. rewrite bool_decide_eq_false_2 by done. simpl.
    unfold classList_contains, classList_add, classList_remove.
    split_and!; [apply bool_decide_ext; set_solver.. |].
    intros Hl Hs. split.
    + intros _. unfold shows_dark, getItem; simpl.
      unfold classList_add.
      split_and!; [set_solver.. |]. apply lookup_insert_eq.
    + intros (_ & _ & _ & _ & Hst). unfold getItem, setItem in Hst.
      simpl in Hst. rewrite lookup_insert_eq in Hst. discriminate.
Qed.

Lemma loadTheme_after_toggleTheme_witness :
  shows_light
    (loadTheme {| body := ∅; themeIcon := ∅;
                  localStorage := localStorage (toggleTheme first_visit) |}).
Proof.
  apply (proj2 (proj2 (loadTheme_after_toggleTheme first_visit ∅ ∅)));
    [set_solver | set_solver |].
  assert (Hd : "dark-mode" ∈ body first_visit).
  { unfold first_visit, loadTheme, getItem. simpl.
    unfold classList_add. set_solver. }
  rewrite (toggleTheme_dark _ Hd). unfold shows_light; simpl.
  unfold classList_add, classList_remove, getItem, setItem.
  split_and!; [set_solver.. |]. apply lookup_insert_eq.
Defined.

(** Running [loadTheme] again changes nothing. *)
Theorem loadTheme_idempotent (p : Page) :
  loadTheme (loadTheme p) = loadTheme p.
Proof.
  destruct p as [b i st].
  assert (Hst : ∀ q, localStorage (loadTheme q) = localStorage q).
  { intros q. unfold loadTheme. by case_bool_decide. }
  unfold loadTheme at 1. rewrite Hst. unfold loadTheme. simpl.
  destruct (bool_decide (getItem "theme" st = Some "light")); simpl;
    f_equal; unfold classList_add, classList_remove; set_solver.
Qed.

End ThemeFacts.

(** ** Header scroll effect *)

Module HeaderFacts.

Import Header.

Lemma Qgtb_lt (a b : Q) : Qgtb a b = true ↔ (b < a)%Q.
Proof.
  unfold Qgtb. rewrite negb_true_iff.
  split.
  - intros H. apply Qnot_le_lt. intros Hle.
    apply Qle_bool_iff in Hle. congruence.
  - intros H. destruct (Qle_bool a b) eqn:E; [| done].
    apply Qle_bool_iff in E. exfalso. by apply (Qlt_not_le b a).
Qed.

(** C7: after the scroll listener has run, the header carries [scrolled]
    exactly when the scroll distance read from the window exceeds 100:
    [window.pageYOffset], or [document.documentElement.scrollTop] when
    [window.pageYOffset] is 0. Where that second number does not exceed
    100 whenever the first is 0 (in a browser both are 0 at the top of
    the page), the header carries [scrolled] exactly when
    [window.pageYOffset] exceeds 100. Neither the header classes nor the
    scroll position remembered from before make a difference, and no
    other class of the header changes. *)
Theorem header_scrolled_stateless (win : Window) (s s' : State) :
  (classList_contains "scrolled" (header (on_scroll win s)) = true
     ↔ (100 < pageYOffset win)%Q
       ∨ ((pageYOffset win == 0)%Q
          ∧ (100 < documentElement_scrollTop win)%Q)) ∧
  (((pageYOffset win == 0)%Q → (documentElement_scrollTop win <= 100)%Q) →
   (classList_contains "scrolled" (header (on_scroll win s)) = true
      ↔ (100 < pageYOffset win)%Q)) ∧
  classList_contains "scrolled" (header (on_scroll win s))
    = classList_contains "scrolled" (header (on_scroll win s')) ∧
  (∀ c, c ≠ "scrolled" →
     classList_contains c (header (on_scroll win s))
       = classList_contains c (header s)).
Proof.
  assert (Hval : ∀ t, classList_contains "scrolled" (header (on_scroll win t))
                      = Qgtb (scrollTop win) 100).
  { intros t. unfold on_scroll. simpl.
    destruct (Qgtb (scrollTop win) 100).
    - rewrite contains_add. by rewrite bool_decide_eq_true_2.
    - rewrite contains_remove. by rewrite bool_decide_eq_true_2. }
  assert (Hraw : Qgtb (scrollTop win) 100 = true
                 ↔ (100 < pageYOffset win)%Q
                   ∨ ((pageYOffset win == 0)%Q
                      ∧ (100 < documentElement_scrollTop win)%Q)).
  { rewrite Qgtb_lt. unfold scrollTop, js_or.
    destruct (Qeq_bool (pageYOffset win) 0) eqn:E.
    - apply Qeq_bool_iff in E. split.
      + intros H. by right.
      + intros [H | [_ H]]; [|done]. rewrite E in H. discriminate.
    - split; [by left|]. intros [H | [H _]]; [done|].
      apply Qeq_bool_iff in H. congruence. }
  split_and!.
  - by rewrite Hval.
  - intros Hzero. rewrite Hval, Hraw. split; [|by left].
    intros [H | [H0 H]]; [done|].
    exfalso. by apply (Qlt_not_le _ _ H), Hzero.
  - by rewrite !Hval.
  - intros c Hc. unfold on_scroll. simpl.
    destruct (Qgtb (scrollTop win) 100).
    + rewrite contains_add. by rewrite bool_decide_eq_false_2.
    + rewrite contains_remove. by rewrite bool_decide_eq_false_2.
Qed.

Lemma header_scrolled_stateless_witness :
  classList_contains "scrolled"
    (header (on_scroll {| pageYOffset := 150; documentElement_scrollTop := 150 |}
               {| header := {[ "header" ]}; lastScrollTop := 0 |})) = true
  ∧ classList_contains "scrolled"
      (header (on_scroll {| pageYOffset := 100; documentElement_scrollTop := 100 |}
                 {| header := {[ "header"; "scrolled" ]};
                    lastScrollTop := 150 |})) = false.
Proof.
  split.
  - apply (proj2 (proj1 (proj2 (header_scrolled_stateless
                                  {| pageYOffset := 150;
                                     documentElement_scrollTop := 150 |}
                                  {| header := {[ "header" ]};
                                     lastScrollTop := 0 |}
                                  {| header := ∅; lastScrollTop := 0 |}))
                   ltac:(intros H; discriminate H))).
    reflexivity.
  - apply not_true_is_false. intros H.
    apply (proj1 (proj1 (proj2 (header_scrolled_stateless
                                  {| pageYOffset := 100;
                                     documentElement_scrollTop := 100 |}
                                  {| header := {[ "header"; "scrolled" ]};
                                     lastScrollTop := 150 |}
                                  {| header := ∅; lastScrollTop := 0 |}))
                   ltac:(intros H0; discriminate H0))) in H.
    discriminate H.
Defined.

(** [window.pageYOffset] is another name of [window.scrollY]. When both
    scroll listeners have run on the same event, the back-to-top button is
    visible exactly when the page is scrolled by more than 500, and then
    the header is compacted too. *)
Theorem backToTop_visible_header_scrolled
    (win : Window) (s : State) (backToTop : gset string) :
  let scrollY := pageYOffset win in
  (classList_contains "visible" (backToTop_on_scroll scrollY backToTop) = true
     ↔ (500 < scrollY)%Q) ∧
  (classList_contains "visible" (backToTop_on_scroll scrollY backToTop) = true →
     classList_contains "scrolled" (header (on_scroll win s)) = true).
Proof.
  intros scrollY.
  assert (Hv : classList_contains "visible"
                 (backToTop_on_scroll scrollY backToTop)
               = Qgtb scrollY 500).
  { unfold backToTop_on_scroll. destruct (Qgtb scrollY 500).
    - rewrite contains_add. by rewrite bool_decide_eq_true_2.
    - rewrite contains_remove. by rewrite bool_decide_eq_true_2. }
  rewrite Hv. split; [apply Qgtb_lt|].
  intros H. apply Qgtb_lt in H.
  assert (Hs : scrollTop win = scrollY).
  { unfold scrollTop, js_or. fold scrollY.
    destruct (Qeq_bool scrollY 0) eqn:E; [|done].
    apply Qeq_bool_iff in E. rewrite E in H. discriminate. }
  unfold on_scroll. simpl. rewrite Hs.
  assert (Hg : Qgtb scrollY 100 = true).
  { apply Qgtb_lt. eapply Qlt_trans; [|exact H]. reflexivity. }
  rewrite Hg, contains_add. by rewrite bool_decide_eq_true_2.
Qed.

Lemma backToTop_visible_header_scrolled_witness :
  classList_contains "scrolled"
    (header (on_scroll {| pageYOffset := 600; documentElement_scrollTop := 600 |}
               {| header := ∅; lastScrollTop := 0 |})) = true.
Proof.
  apply (proj2 (backToTop_visible_header_scrolled _ _ ∅)).
  simpl. unfold backToTop_on_scroll. simpl.
  rewrite contains_add. by rewrite bool_decide_eq_true_2.
Defined.

End HeaderFacts.

(** ** Active navigation link *)

Module NavFacts.

Import Nav.

Lemma is_active_add (l : NavLink) : is_active (add_active l) = true.
Proof.
  unfold is_active, add_active; simpl.
  rewrite contains_add. by rewrite bool_decide_eq_true_2.
Qed.

Lemma active_count_clear (links : list NavLink) :
  active_count (clear_active links) = 0.
Proof.
  induction links as [|l rest IH]; simpl; [done|].
  rewrite IH. unfold is_active; simpl.
  rewrite contains_remove. by rewrite bool_decide_eq_true_2.
Qed.

Lemma active_count_alter_add (i : nat) (links : list NavLink) :
  (active_count (alter add_active i links) ≤ S (active_count links))%nat.
Proof.
  revert i. induction links as [|l rest IH]; intros [|i]; simpl; try lia.
  - rewrite is_active_add. destruct (is_active l); simpl; lia.
  - specialize (IH i). change (list_alter add_active i rest)
      with (alter add_active i rest).
    destruct (is_active l); simpl; lia.
Qed.

Section ObserverFacts.

Variable css_string : string → option string.

Lemma on_entry_not_intersecting entry links :
  isIntersecting entry = false →
  on_entry css_string entry links = (Normal, links).
Proof. unfold on_entry. by intros ->. Qed.

Lemma on_entry_intersecting entry links :
  isIntersecting entry = true →
  at_most_one_active (snd (on_entry css_string entry links)).
Proof.
  unfold on_entry, at_most_one_active. intros ->.
  pose proof (active_count_clear links) as Hz.
  destruct (css_string (template (target_id entry))) as [v|]; simpl.
  - destruct (first_with_section v (clear_active links)) as [i|]; simpl.
    + pose proof (active_count_alter_add i (clear_active links)). lia.
    + lia.
  - lia.
Qed.

Lemma on_entry_preserves entry links :
  at_most_one_active links →
  at_most_one_active (snd (on_entry css_string entry links)).
Proof.
  intros H. destruct (isIntersecting entry) eqn:E.
  - by apply on_entry_intersecting.
  - by rewrite on_entry_not_intersecting.
Qed.

Lemma sectionObserver_preserves entries links :
  at_most_one_active links →
  at_most_one_active (snd (sectionObserver css_string entries links)).
Proof.
  revert links. induction entries as [|entry rest IH]; intros links H.
  - exact H.
  - simpl. pose proof (on_entry_preserves entry links H) as Hs.
    destruct (on_entry css_string entry links) as [[|] links']; simpl in *.
    + by apply IH.
    + exact Hs.
Qed.

Lemma sectionObserver_none_intersecting entries links :
  existsb isIntersecting entries = false →
  sectionObserver css_string entries links = (Normal, links).
Proof.
  induction entries as [|entry rest IH]; simpl; [done|].
  intros H. apply orb_false_iff in H as [He Hr].
  rewrite (on_entry_not_intersecting entry links He). by apply IH.
Qed.

Lemma sectionObserver_some_intersecting entries links :
  existsb isIntersecting entries = true →
  at_most_one_active (snd (sectionObserver css_string entries links)).
Proof.
  revert links. induction entries as [|entry rest IH]; intros links; simpl;
    [done|].
  destruct (isIntersecting entry) eqn:He; simpl.
  - intros _. pose proof (on_entry_intersecting entry links He) as Hs.
    destruct (on_entry css_string entry links) as [[|] links']; simpl in *.
    + by apply sectionObserver_preserves.
    + exact Hs.
  - intros Hr. rewrite (on_entry_not_intersecting entry links He).
    by apply IH.
Qed.

End ObserverFacts.

(** C10 (as amended): when at least one entry is intersecting, at most one
    nav link carries [active] after the callback, whatever the links
    carried before; when no entry is intersecting the callback changes no
    link; hence a page with at most one active link keeps at most one. *)
Theorem sectionObserver_at_most_one_active
    (css_string : string → option string)
    (entries : list Entry) (links : list NavLink) :
  (existsb isIntersecting entries = true →
     at_most_one_active (snd (sectionObserver css_string entries links))) ∧
  (existsb isIntersecting entries = false →
     sectionObserver css_string entries links = (Normal, links)) ∧
  (at_most_one_active links →
     at_most_one_active (snd (sectionObserver css_string entries links))).
Proof.
  split_and!.
  - apply sectionObserver_some_intersecting.
  - apply sectionObserver_none_intersecting.
  - apply sectionObserver_preserves.
Qed.

Lemma active_count_two_active : active_count two_active = 2.
Proof.
  unfold two_active, active_count, is_active; simpl.
  rewrite !(proj2 (contains_true _ _)) by set_solver. done.
Qed.

Lemma sectionObserver_at_most_one_active_witness :
  at_most_one_active
    (snd (sectionObserver plain_css_string entering_about two_active)).
Proof.
  apply (proj1 (sectionObserver_at_most_one_active
                  plain_css_string entering_about two_active)).
  reflexivity.
Defined.

(** C10 (as stated) fails: called with a single entry that is not
    intersecting (a section leaving the band), the callback leaves two
    active links as they were. *)
Lemma sectionObserver_keeps_two_active :
  sectionObserver plain_css_string leaving_home two_active
    = (Normal, two_active) ∧
  active_count (snd (sectionObserver plain_css_string leaving_home two_active))
    = 2 ∧
  ¬ at_most_one_active
      (snd (sectionObserver plain_css_string leaving_home two_active)).
Proof.
  assert (H : sectionObserver plain_css_string leaving_home two_active
              = (Normal, two_active)) by reflexivity.
  rewrite H. simpl. unfold at_most_one_active.
  rewrite active_count_two_active. split_and!; [done | done | lia].
Qed.

Lemma clear_active_alter (i : nat) (links : list NavLink) :
  clear_active (alter add_active i links) = clear_active links.
Proof.
  revert i. induction links as [|l rest IH]; intros [|i]; simpl; try done.
  - f_equal. f_equal. unfold classList_add, classList_remove. set_solver.
  - f_equal. apply IH.
Qed.

Lemma clear_active_twice (links : list NavLink) :
  clear_active (clear_active links) = clear_active links.
Proof.
  induction links as [|l rest IH]; simpl; [done|].
  f_equal; [|exact IH]. f_equal. unfold classList_remove. set_solver.
Qed.

Lemma first_with_section_bound v (links : list NavLink) i :
  first_with_section v links = Some i →
  ∃ l, links !! i = Some l ∧ data_section l = Some v.
Proof.
  revert i. induction links as [|l rest IH]; intros i; simpl; [done|].
  case_bool_decide as Hd.
  - intros [= <-]. by exists l.
  - destruct (first_with_section v rest) as [j|]; simpl; [|done].
    intros [= <-]. by apply IH.
Qed.

Lemma is_active_clear (links : list NavLink) i l :
  clear_active links !! i = Some l → is_active l = false.
Proof.
  unfold clear_active. rewrite list_lookup_fmap.
  destruct (links !! i) as [l0|]; simpl; [|done]. intros [= <-].
  unfold is_active. simpl. rewrite contains_remove.
  by rewrite bool_decide_eq_true_2.
Qed.

Section LastWins.

Variable css_string : string → option string.

(** What an intersecting entry does depends on the links only through
    what is left of them once [active] is removed. *)
Lemma on_entry_absorbs entry links1 links2 :
  isIntersecting entry = true →
  clear_active links1 = clear_active links2 →
  on_entry css_string entry links1 = on_entry css_string entry links2.
Proof. unfold on_entry. by intros -> ->. Qed.

Lemma on_entry_clear_active entry links links' :
  on_entry css_string entry links = (Normal, links') →
  isIntersecting entry = true →
  clear_active links' = clear_active links.
Proof.
  unfold on_entry. intros H E. rewrite E in H.
  destruct (css_string (template (target_id entry))) as [v|]; [|done].
  destruct (first_with_section v (clear_active links)) as [i|];
    injection H as <-.
  - by rewrite clear_active_alter, clear_active_twice.
  - apply clear_active_twice.
Qed.

Lemma last_intersecting_none entries :
  last_intersecting entries = None → existsb isIntersecting entries = false.
Proof.
  induction entries as [|entry rest IH]; simpl; [done|].
  destruct (last_intersecting rest); [done|].
  destruct (isIntersecting entry); [done|]. intros _. by apply IH.
Qed.

Lemma last_intersecting_is_intersecting entries entry :
  last_intersecting entries = Some entry → isIntersecting entry = true.
Proof.
  induction entries as [|e rest IH]; simpl; [done|].
  destruct (last_intersecting rest) as [later|].
  - intros [= <-]. by apply IH.
  - destruct (isIntersecting e) eqn:E; [|done]. by intros [= <-].
Qed.

Lemma sectionObserver_last entries :
  Forall (λ e, isIntersecting e = true →
               css_string (template (target_id e)) ≠ None) entries →
  ∀ entry links1 links2,
    last_intersecting entries = Some entry →
    clear_active links1 = clear_active links2 →
    sectionObserver css_string entries links1
      = on_entry css_string entry links2.
Proof.
  induction 1 as [|e rest He Hrest IH]; intros entry links1 links2; simpl;
    [done|].
  destruct (last_intersecting rest) as [later|] eqn:L.
  - intros [= <-] Hc.
    destruct (isIntersecting e) eqn:E.
    + destruct (on_entry css_string e links1) as [[|] links'] eqn:O.
      * apply (IH later); [done|].
        rewrite <- Hc. by eapply on_entry_clear_active.
      * exfalso. unfold on_entry in O. rewrite E in O.
        destruct (css_string (template (target_id e))) as [v|];
          [|by apply He].
        by destruct (first_with_section v (clear_active links1)).
    + rewrite on_entry_not_intersecting by done. by apply (IH later).
  - destruct (isIntersecting e) eqn:E; [|done]. intros [= <-] Hc.
    rewrite (on_entry_absorbs e links1 links2 E Hc).
    destruct (on_entry css_string e links2) as [[|] links']; [|done].
    apply sectionObserver_none_intersecting.
    by apply last_intersecting_none.
Qed.

End LastWins.

(** Last intersecting entry wins: when the selector of every intersecting
    entry parses, the callback as a whole does what its last intersecting
    entry alone would do to the links it was given; what the earlier
    entries marked is wiped. With no intersecting entry it does nothing. *)
Theorem sectionObserver_last_wins
    (css_string : string → option string)
    (entries : list Entry) (links : list NavLink) :
  Forall (λ e, isIntersecting e = true →
               css_string (template (target_id e)) ≠ None) entries →
  sectionObserver css_string entries links
    = match last_intersecting entries with
      | Some entry => on_entry css_string entry links
      | None => (Normal, links)
      end.
Proof.
  intros H. destruct (last_intersecting entries) as [entry|] eqn:L.
  - by apply sectionObserver_last.
  - apply sectionObserver_none_intersecting.
    by apply last_intersecting_none.
Qed.

Lemma sectionObserver_last_wins_witness :
  sectionObserver plain_css_string (entering_about ++ leaving_home) two_active
    = on_entry plain_css_string
        {| isIntersecting := true; target_id := Some "about" |} two_active.
Proof.
  apply (sectionObserver_last_wins plain_css_string
           (entering_about ++ leaving_home) two_active).
  repeat constructor; simpl; discriminate.
Defined.

Lemma last_intersecting_elem entries entry :
  last_intersecting entries = Some entry → entry ∈ entries.
Proof.
  induction entries as [|e rest IH]; simpl; [done|].
  destruct (last_intersecting rest) as [later|].
  - intros [= <-]. constructor. by apply IH.
  - destruct (isIntersecting e); [|done]. intros [= <-]. constructor.
Qed.

Lemma plain_css_string_plain (s : string) :
  plain_id s = true → plain_css_string s = Some s.
Proof.
  unfold plain_id, plain_css_string. intros H.
  assert (E : forallb (λ a, negb (needs_escape a))
                (String.list_ascii_of_string s) = true).
  { induction (String.list_ascii_of_string s) as [|a l IH]; simpl in *;
      [done|].
    apply andb_true_iff in H as [Ha Hl].
    apply andb_true_iff in Ha as [Ha _].
    rewrite Ha. by apply IH. }
  by rewrite E.
Qed.

(** Which link ends up active. Let the selector parser read a plain id
    back as it is, and let the ids of the intersecting entries be plain
    (no double quote, backslash, line break or NUL; a target without an
    id counts as the id [null]). Then after the callback the link at
    position [i] carries [active] exactly when it is the first link whose
    [data-section] is the id of the last intersecting entry; when no link
    has that [data-section], none is active. *)
Theorem sectionObserver_marks_first_match
    (css_string : string → option string)
    (entries : list Entry) (links : list NavLink) (entry : Entry) :
  (∀ s, plain_id s = true → css_string s = Some s) →
  Forall (λ e, isIntersecting e = true →
               plain_id (template (target_id e)) = true) entries →
  last_intersecting entries = Some entry →
  ∀ i l, snd (sectionObserver css_string entries links) !! i = Some l →
         is_active l
         = bool_decide (first_with_section (template (target_id entry)) links
                        = Some i).
Proof.
  intros Hcss Hplain Hl i l.
  assert (Hp : Forall (λ e, isIntersecting e = true →
                            css_string (template (target_id e)) ≠ None)
                 entries).
  { eapply Forall_impl; [exact Hplain|]. intros e He Hi. simpl in He.
    by rewrite (Hcss _ (He Hi)). }
  assert (Hv : css_string (template (target_id entry))
               = Some (template (target_id entry))).
  { apply Hcss.
    apply (proj1 (Forall_forall _ _) Hplain entry).
    - by apply last_intersecting_elem.
    - by eapply last_intersecting_is_intersecting. }
  rewrite (sectionObserver_last css_string entries Hp entry links links Hl
             eq_refl).
  unfold on_entry.
  rewrite (last_intersecting_is_intersecting entries entry Hl), Hv.
  set (v := template (target_id entry)).
  assert (Hf : ∀ ls, first_with_section v (clear_active ls)
                     = first_with_section v ls).
  { induction ls as [|a ls IH]; simpl; [done|]. by rewrite IH. }
  rewrite Hf.
  destruct (first_with_section v links) as [j|] eqn:F; simpl.
  - destruct (decide (i = j)) as [->|Hne].
    + rewrite bool_decide_eq_true_2 by done.
      rewrite list_lookup_alter_eq.
      destruct (clear_active links !! j); simpl; [|done].
      intros [= <-]. apply is_active_add.
    + rewrite bool_decide_eq_false_2 by congruence.
      rewrite list_lookup_alter_ne by done. apply is_active_clear.
  - intros Hi. rewrite (is_active_clear _ _ _ Hi).
    first [ done | by rewrite bool_decide_eq_false_2 ].
Qed.

Lemma sectionObserver_marks_first_match_witness :
  let about :=
    {| data_section := Some "about";
       classes := classList_add "active"
                    (classList_remove "active" {[ "nav-link"; "active" ]}) |} in
  is_active about
  = bool_decide (first_with_section "about" two_active = Some 1%nat).
Proof.
  intros about.
  apply (sectionObserver_marks_first_match plain_css_string entering_about
           two_active {| isIntersecting := true; target_id := Some "about" |}).
  - exact plain_css_string_plain.
  - repeat constructor.
  - reflexivity.
  - reflexivity.
Defined.

Lemma on_entry_frame css_string entry (links : list NavLink) :
  map data_section (snd (on_entry css_string entry links))
    = map data_section links ∧
  ∀ c, c ≠ "active" →
    map (λ l, classList_contains c (classes l))
        (snd (on_entry css_string entry links))
    = map (λ l, classList_contains c (classes l)) links.
Proof.
  assert (Hclear : ∀ ls,
    map data_section (clear_active ls) = map data_section ls ∧
    ∀ c, c ≠ "active" →
      map (λ l, classList_contains c (classes l)) (clear_active ls)
      = map (λ l, classList_contains c (classes l)) ls).
  { induction ls as [|a ls [IH1 IH2]]; simpl; [done|]. split.
    - by rewrite IH1.
    - intros c Hc. rewrite (IH2 c Hc), contains_remove.
      by rewrite bool_decide_eq_false_2. }
  assert (Halter : ∀ i ls,
    map data_section (alter add_active i ls) = map data_section ls ∧
    ∀ c, c ≠ "active" →
      map (λ l, classList_contains c (classes l)) (alter add_active i ls)
      = map (λ l, classList_contains c (classes l)) ls).
  { intros i ls. revert i.
    induction ls as [|a ls IH]; intros [|i]; simpl; try done.
    - split; [done|]. intros c Hc. rewrite contains_add.
      by rewrite bool_decide_eq_false_2.
    - destruct (IH i) as [IH1 IH2]. split.
      + f_equal. exact IH1.
      + intros c Hc. f_equal. by apply IH2. }
  unfold on_entry. destruct (isIntersecting entry); [|done].
  destruct (Hclear links) as [C1 C2].
  destruct (css_string (template (target_id entry))) as [v|]; simpl;
    [|done].
  destruct (first_with_section v (clear_active links)) as [i|]; simpl;
    [|done].
  destruct (Halter i (clear_active links)) as [A1 A2]. split.
  - by rewrite A1.
  - intros c Hc. by rewrite A2, C2.
Qed.

(** The callback touches nothing but [active]: the links keep their
    number, their order, their [data-section] and every other class. *)
Theorem sectionObserver_frame
    (css_string : string → option string)
    (entries : list Entry) (links : list NavLink) :
  map data_section (snd (sectionObserver css_string entries links))
    = map data_section links ∧
  ∀ c, c ≠ "active" →
    map (λ l, classList_contains c (classes l))
        (snd (sectionObserver css_string entries links))
    = map (λ l, classList_contains c (classes l)) links.
Proof.
  revert links. induction entries as [|entry rest IH]; intros links; simpl;
    [done|].
  destruct (on_entry_frame css_string entry links) as [F1 F2].
  destruct (on_entry css_string entry links) as [[|] links']; simpl in *.
  - destruct (IH links') as [I1 I2]. split.
    + by rewrite I1.
    + intros c Hc. by rewrite I2, F2.
  - done.
Qed.

End NavFacts.

(** ** Timers *)

Module EventLoopFacts.

Import EventLoop.

Local Open Scope Z_scope.

(** A number that fits in 32 bits is read as it is. *)
Lemma long_small (x : Z) :
  - 2147483648 ≤ x → x < 2147483648 → long x = x.
Proof. intros Hl Hu. unfold long. rewrite Z.mod_small by lia. lia. Qed.

Section TimerFacts.

Context {Task St : Type}.
Variable run_task : Task → World Task St → World Task St.
Variable weight : Task → nat.

Implicit Types (l : list (Timer Task)) (w : World Task St).

Lemma pop_earliest_nil l : pop_earliest l = None ↔ l = [].
Proof.
  destruct l as [|t rest]; simpl; [done|].
  split; [|done].
  destruct (pop_earliest rest) as [[u rest']|]; [|done].
  by destruct (due u <? due t).
Qed.

(** The popped timer splits the queue: those before it are due strictly
    later, those after it are due no earlier. *)
Lemma pop_earliest_split l t rest :
  pop_earliest l = Some (t, rest) →
  ∃ l1 l2, l = l1 ++ t :: l2 ∧ rest = l1 ++ l2 ∧
           Forall (λ u, due t < due u) l1 ∧
           Forall (λ u, due t ≤ due u) l2.
Proof.
  revert t rest. induction l as [|a l IH]; intros t rest; simpl; [done|].
  destruct (pop_earliest l) as [[u rest']|] eqn:E.
  - destruct (IH u rest' eq_refl) as (l1 & l2 & -> & -> & H1 & H2).
    destruct (due u <? due a) eqn:C; intros [= <- <-].
    + apply Z.ltb_lt in C.
      exists (a :: l1), l2. split_and!; [done | done | | done].
      by constructor.
    + apply Z.ltb_ge in C.
      exists [], (l1 ++ u :: l2). split_and!; [done | done | constructor |].
      apply Forall_app. split.
      * eapply Forall_impl; [exact H1|]. simpl. intros; lia.
      * constructor; [lia|].
        eapply Forall_impl; [exact H2|]. simpl. intros; lia.
  - apply pop_earliest_nil in E as ->. intros [= <- <-].
    exists [], []. split_and!; by try constructor.
Qed.

Lemma pending_weight_app l1 l2 :
  pending_weight weight (l1 ++ l2)
  = (pending_weight weight l1 + pending_weight weight l2)%nat.
Proof. unfold pending_weight. by rewrite map_app, list_sum_app. Qed.

Lemma pending_weight_cons (t : Timer Task) l :
  pending_weight weight (t :: l)
  = (weight (task t) + pending_weight weight l)%nat.
Proof. done. Qed.

Lemma pending_weight_filter (P : Timer Task → Prop) `{∀ t, Decision (P t)} l :
  (pending_weight weight (filter P l) ≤ pending_weight weight l)%nat.
Proof.
  induction l as [|t l IH]; [done|].
  rewrite filter_cons. destruct (decide (P t));
    rewrite !pending_weight_cons; lia.
Qed.

Lemma fire_quiet horizon w :
  quiet horizon (timers w) → fire run_task horizon w = None.
Proof.
  unfold fire, quiet. intros Hq.
  destruct (pop_earliest (timers w)) as [[t rest]|] eqn:E; [|done].
  apply pop_earliest_split in E as (l1 & l2 & Hl & _).
  rewrite Hl in Hq. apply Forall_app in Hq as [_ Hq].
  apply Forall_cons_1 in Hq as [Ht _].
  destruct (due t <=? horizon) eqn:C; [|done].
  apply Z.leb_le in C. lia.
Qed.

Lemma fire_none_quiet horizon w :
  fire run_task horizon w = None → quiet horizon (timers w).
Proof.
  unfold fire, quiet.
  destruct (pop_earliest (timers w)) as [[t rest]|] eqn:E.
  - apply pop_earliest_split in E as (l1 & l2 & -> & _ & H1 & H2).
    destruct (due t <=? horizon) eqn:C; [done|]. intros _.
    apply Z.leb_gt in C.
    apply Forall_app. split.
    + eapply Forall_impl; [exact H1|]. simpl. intros; lia.
    + constructor; [done|].
      eapply Forall_impl; [exact H2|]. simpl. intros; lia.
  - apply pop_earliest_nil in E as ->. intros _. constructor.
Qed.

Lemma run_until_quiet fuel horizon w :
  quiet horizon (timers w) → run_until run_task fuel horizon w = w.
Proof.
  intros Hq. destruct fuel; simpl; [done|]. by rewrite fire_quiet.
Qed.

Lemma advance_to_quiet horizon w :
  quiet horizon (timers w) →
  advance_to run_task weight horizon w
  = {| now := Z.max (now w) horizon; next_id := next_id w;
       timers := timers w; state := state w |}.
Proof.
  intros Hq. unfold advance_to. by rewrite run_until_quiet.
Qed.

(** In a queue whose head is due no later than the rest, the head fires
    first. *)
Lemma pop_earliest_head (t : Timer Task) rest :
  Forall (λ u, due t ≤ due u) rest →
  pop_earliest (t :: rest) = Some (t, rest).
Proof.
  intros Hle.
  destruct (pop_earliest (t :: rest)) as [[u rest']|] eqn:E.
  - apply pop_earliest_split in E as (l1 & l2 & Hl & -> & H1 & H2).
    destruct l1 as [|a l1]; simpl in Hl.
    + by injection Hl as <- <-.
    + exfalso. injection Hl as <- ->.
      apply Forall_cons_1 in H1 as [H1 _].
      apply Forall_app in Hle as [_ Hle].
      apply Forall_cons_1 in Hle as [Hle _]. lia.
  - by apply pop_earliest_nil in E.
Qed.

Lemma fire_one horizon w (x : Timer Task) :
  timers w = [x] → due x ≤ horizon →
  fire run_task horizon w
  = Some (run_task (task x)
            {| now := Z.max (now w) (due x); next_id := next_id w;
               timers := []; state := state w |}).
Proof.
  intros Ht Hd. unfold fire. rewrite Ht. simpl.
  by rewrite (proj2 (Z.leb_le _ _) Hd).
Qed.

(** When every callback respects its weight, the fuel that [advance_to]
    gives to the loop is enough: it stops because nothing is due. *)
Hypothesis run_task_weight : ∀ t w,
  (pending_weight weight (timers (run_task t w)) + 1
   ≤ weight t + pending_weight weight (timers w))%nat.

Lemma run_until_settles fuel horizon w :
  (pending_weight weight (timers w) ≤ fuel)%nat →
  quiet horizon (timers (run_until run_task fuel horizon w)).
Proof.
  revert w. induction fuel as [|fuel IH]; intros w Hf; simpl.
  - destruct (timers w) as [|t l] eqn:E; [constructor|].
    exfalso. rewrite pending_weight_cons in Hf.
    pose proof (run_task_weight (task t)
                  {| now := 0; next_id := O; timers := []; state := state w |}).
    simpl in *. unfold pending_weight in *. simpl in *. lia.
  - destruct (fire run_task horizon w) as [w'|] eqn:F.
    + apply IH. unfold fire in F.
      destruct (pop_earliest (timers w)) as [[t rest]|] eqn:E; [|done].
      destruct (due t <=? horizon); [|done]. injection F as <-.
      apply pop_earliest_split in E as (l1 & l2 & Hl & -> & _).
      rewrite Hl, pending_weight_app, pending_weight_cons in Hf.
      match goal with |- (pending_weight _ (timers (run_task _ ?w0)) ≤ _)%nat =>
        pose proof (run_task_weight (task t) w0) as Hw end.
      simpl in Hw. rewrite pending_weight_app in Hw. lia.
    + by apply fire_none_quiet.
Qed.

Lemma advance_to_settles horizon w :
  quiet horizon (timers (advance_to run_task weight horizon w)).
Proof. unfold advance_to; simpl. by apply run_until_settles. Qed.

End TimerFacts.

End EventLoopFacts.

(** ** Strings and regular expressions *)

Module JsStringFacts.

Import JsString.

Local Open Scope N_scope.

Lemma nullable_lang r : nullable r = true ↔ lang r [].
Proof.
  split.
  - induction r; simpl; intros H; try discriminate.
    + constructor.
    + apply andb_true_iff in H as [H1 H2].
      change (@nil N) with (@nil N ++ []). constructor; auto.
    + apply orb_true_iff in H as [H|H];
        [apply lang_alt_l | apply lang_alt_r]; auto.
    + constructor.
  - intros H. remember [] as s eqn:Hs.
    induction H; simpl; try done.
    + apply app_eq_nil in Hs as [-> ->].
      rewrite IHlang1, IHlang2; done.
    + rewrite IHlang; done.
    + rewrite IHlang; [apply orb_true_r | done].
Qed.

Lemma deriv_sound c r s : lang (deriv c r) s → lang r (c :: s).
Proof.
  revert s. induction r; simpl; intros s H.
  - inversion H.
  - inversion H.
  - destruct (p c) eqn:E; inversion H; subst. by constructor.
  - destruct (nullable r1) eqn:E.
    + inversion H; subst.
      * match goal with X : lang (Cat _ _) _ |- _ => inversion X; subst end.
        change (c :: s1 ++ s2) with ((c :: s1) ++ s2). constructor; auto.
      * change (c :: s) with ([] ++ c :: s). constructor; auto.
        by apply nullable_lang.
    + inversion H; subst.
      change (c :: s1 ++ s2) with ((c :: s1) ++ s2). constructor; auto.
  - inversion H; subst; [apply lang_alt_l | apply lang_alt_r]; auto.
  - inversion H; subst.
    change (c :: s1 ++ s2) with ((c :: s1) ++ s2). constructor; auto.
Qed.

Lemma deriv_complete c r s' :
  lang r s' → ∀ s, s' = c :: s → lang (deriv c r) s.
Proof.
  induction 1 as [ | p c' Hp | r1 r2 s1 s2 H1 IH1 H2 IH2 | r1 r2 s0 H0 IH0
                 | r1 r2 s0 H0 IH0 | r0 | r0 s1 s2 H1 IH1 H2 IH2 ];
    intros s Hs; simpl.
  - discriminate.
  - injection Hs as -> <-. rewrite Hp. constructor.
  - destruct s1 as [|a s1]; simpl in Hs.
    + subst s2. rewrite (proj2 (nullable_lang r1) H1).
      apply lang_alt_r. by apply IH2.
    + injection Hs as -> <-.
      destruct (nullable r1).
      * apply lang_alt_l. constructor; [by apply IH1 | done].
      * constructor; [by apply IH1 | done].
  - apply lang_alt_l. by apply IH0.
  - apply lang_alt_r. by apply IH0.
  - discriminate.
  - destruct s1 as [|a s1]; simpl in Hs.
    + subst s2. by apply IH2.
    + injection Hs as -> <-. constructor; [by apply IH1 | done].
Qed.

Lemma deriv_lang c r s : lang (deriv c r) s ↔ lang r (c :: s).
Proof.
  split; [apply deriv_sound | intros H; by eapply deriv_complete].
Qed.

(** The matcher decides membership in the language. *)
Lemma matches_lang r s : matches r s = true ↔ lang r s.
Proof.
  revert r. induction s as [|c s IH]; intros r; simpl.
  - apply nullable_lang.
  - rewrite IH. apply deriv_lang.
Qed.

Lemma lang_cat_inv r1 r2 s :
  lang (Cat r1 r2) s ↔ ∃ s1 s2, s = s1 ++ s2 ∧ lang r1 s1 ∧ lang r2 s2.
Proof.
  split.
  - intros H. inversion H; subst. eauto.
  - intros (s1 & s2 & -> & H1 & H2). by constructor.
Qed.

Lemma lang_chr c s : lang (Chr c) s ↔ s = [c].
Proof.
  unfold Chr. split.
  - intros H. inversion H as [ | p c' Hp | | | | | ]; subst.
    apply N.eqb_eq in Hp. by subst.
  - intros ->. constructor. apply N.eqb_refl.
Qed.

Lemma lang_star_class p s :
  lang (Star (Class p)) s ↔ Forall (λ c, p c = true) s.
Proof.
  split.
  - intros H. remember (Star (Class p)) as r eqn:Hr.
    induction H; try discriminate.
    + constructor.
    + injection Hr as ->. apply Forall_app. split; [|auto].
      match goal with X : lang (Class _) _ |- _ => inversion X; subst end.
      by repeat constructor.
  - induction 1 as [|c s Hc _ IH].
    + constructor.
    + change (c :: s) with ([c] ++ s). constructor; [by constructor | done].
Qed.

Lemma lang_plus_class p s :
  lang (Plus (Class p)) s ↔ s ≠ [] ∧ Forall (λ c, p c = true) s.
Proof.
  unfold Plus. rewrite lang_cat_inv. split.
  - intros (s1 & s2 & -> & H1 & H2).
    inversion H1; subst. split; [done|].
    constructor; [done|]. by apply lang_star_class.
  - intros [Hne H]. destruct H as [|c s Hc H]; [done|].
    exists [c], s. split_and!; [done | by constructor |].
    by apply lang_star_class.
Qed.

Lemma not_space_not_at_true c :
  not_space_not_at c = true ↔ is_space c = false ∧ c ≠ 64.
Proof.
  unfold not_space_not_at.
  rewrite negb_true_iff, orb_false_iff, N.eqb_neq. done.
Qed.

Lemma lang_word s : lang (Plus (Class not_space_not_at)) s ↔ word s.
Proof.
  rewrite lang_plus_class. unfold word.
  split; intros [Hne H]; (split; [done|]);
    (eapply Forall_impl; [exact H|]); intros c; apply not_space_not_at_true.
Qed.

(** [emailRegex.test] accepts exactly the strings of the shape
    [local@domain.tld]. *)
Lemma test_emailRegex s :
  test emailRegex s = true ↔ local_at_domain_tld s.
Proof.
  unfold test, emailRegex, local_at_domain_tld.
  rewrite matches_lang. split.
  - intros H.
    apply lang_cat_inv in H as (l & s1 & -> & Hl & H).
    apply lang_cat_inv in H as (a & s2 & -> & Ha & H).
    apply lang_cat_inv in H as (d & s3 & -> & Hd & H).
    apply lang_cat_inv in H as (b & t & -> & Hb & Ht).
    apply lang_chr in Ha as ->. apply lang_chr in Hb as ->.
    exists l, d, t. by rewrite <- !lang_word.
  - intros (l & d & t & -> & Hl & Hd & Ht).
    apply lang_word in Hl, Hd, Ht.
    apply lang_cat_inv. exists l, (64 :: d ++ 46 :: t).
    split_and!; [done | done |].
    apply lang_cat_inv. exists [64], (d ++ 46 :: t).
    split_and!; [done | by apply lang_chr |].
    apply lang_cat_inv. exists d, (46 :: t).
    split_and!; [done | done |].
    apply lang_cat_inv. exists [46], t.
    split_and!; [done | by apply lang_chr | done].
Qed.

Lemma test_emailRegex_false s :
  test emailRegex s = false ↔ ¬ local_at_domain_tld s.
Proof.
  rewrite <- test_emailRegex. by destruct (test emailRegex s).
Qed.

Lemma trimStart_nil (s : jsstring) :
  trimStart s = [] ↔ Forall (λ c, is_space c = true) s.
Proof.
  induction s as [|c s IH]; simpl.
  - split; [constructor | done].
  - destruct (is_space c) eqn:E.
    + rewrite IH. split; [by constructor|]. by inversion 1.
    + split; [done|]. inversion 1; congruence.
Qed.

Lemma trimStart_head (s : jsstring) c rest :
  trimStart s = c :: rest → is_space c = false.
Proof.
  induction s as [|a s IH]; simpl; [done|].
  destruct (is_space a) eqn:E; [exact IH|]. by intros [= <- _].
Qed.

Lemma trimStart_suffix (s : jsstring) : ∃ pre, s = pre ++ trimStart s ∧
  Forall (λ c, is_space c = true) pre.
Proof.
  induction s as [|a s (pre & IH & Hpre)]; simpl.
  - by exists [].
  - destruct (is_space a) eqn:E.
    + exists (a :: pre). split; [simpl; congruence | by constructor].
    + by exists [].
Qed.

(** [trim] leaves nothing exactly of the strings made of white space
    only. *)
Lemma trim_nil (s : jsstring) :
  trim s = [] ↔ Forall (λ c, is_space c = true) s.
Proof.
  unfold trim, trimEnd. split.
  - intros H. apply (f_equal (@rev N)) in H. rewrite rev_involutive in H.
    simpl in H. apply trimStart_nil in H.
    destruct (trimStart s) as [|c rest] eqn:E.
    + by apply trimStart_nil.
    + exfalso. pose proof (trimStart_head s c rest E) as Hc.
      apply Forall_rev in H. rewrite rev_involutive in H.
      inversion H; congruence.
  - intros H. apply trimStart_nil in H. by rewrite H.
Qed.

(** What [trim] returns neither starts nor ends with white space. *)
Lemma trim_ends (s : jsstring) :
  (∀ c rest, trim s = c :: rest → is_space c = false) ∧
  (∀ c front, trim s = front ++ [c] → is_space c = false).
Proof.
  unfold trim, trimEnd. split.
  - intros c rest H.
    destruct (trimStart (rev (trimStart s))) as [|a r] eqn:E; [done|].
    destruct (trimStart_suffix (rev (trimStart s))) as (pre & Hs & Hpre).
    rewrite E in Hs. apply (f_equal (@rev N)) in Hs.
    rewrite rev_involutive, rev_app_distr in Hs. rewrite Hs in *.
    destruct (rev (a :: r)) as [|c' r'] eqn:R.
    { apply (f_equal (@rev N)) in R. rewrite rev_involutive in R. done. }
    injection H as <- _. simpl in Hs.
    destruct (trimStart s) as [|c0 r0] eqn:E0.
    { simpl in E. done. }
    injection Hs as <- _. by eapply trimStart_head.
  - intros c front H. apply (f_equal (@rev N)) in H.
    rewrite rev_involutive, rev_app_distr in H. simpl in H.
    by eapply trimStart_head.
Qed.

End JsStringFacts.

(** ** Contact form handling *)

Module ContactFormFacts.

Import EventLoop EventLoopFacts JsString JsStringFacts ContactForm.

Local Open Scope Z_scope.

Lemma showFormMessage_posted msg type w :
  message_posted msg ("form-message " +:+ type) w (showFormMessage msg type w).
Proof. unfold message_posted, same_fields, same_submitBtn. done. Qed.

(** C2: when some field is empty once trimmed, the handler shows
    [Please fill in all fields.] as an error, registers nothing but the
    timer that hides this message (so no submission is started), and leaves
    the submit button and the fields as they were. *)
Theorem handleFormSubmit_empty_field (w : Page) :
  trim (fullName (state w)) = [] ∨ trim (email (state w)) = [] ∨
  trim (subject (state w)) = [] ∨ trim (message (state w)) = [] →
  message_posted "Please fill in all fields." "form-message error"
    w (handleFormSubmit w) ∧
  submitBtn_disabled (state (handleFormSubmit w))
    = submitBtn_disabled (state w) ∧
  Forall (λ t, task t = CompleteSubmission → t ∈ timers w)
    (timers (handleFormSubmit w)).
Proof.
  intros H.
  assert (E : js_not (trim (fullName (state w)))
              || js_not (trim (email (state w)))
              || js_not (trim (subject (state w)))
              || js_not (trim (message (state w))) = true).
  { destruct H as [H|[H|[H|H]]]; rewrite H; simpl;
      rewrite ?orb_true_r; done. }
  unfold handleFormSubmit. rewrite E.
  split_and!.
  - apply showFormMessage_posted.
  - done.
  - simpl. apply Forall_app. split.
    + apply Forall_forall. auto.
    + constructor; [|constructor]. simpl. discriminate.
Qed.

(** C3: when the four trimmed fields are non-empty and the trimmed email
    does not have the shape [local@domain.tld], the handler shows
    [Please enter a valid email address.] as an error and registers
    nothing but the timer that hides this message; no submission is
    started and the submit button is as it was. *)
Theorem handleFormSubmit_malformed_email (w : Page) :
  trim (fullName (state w)) ≠ [] → trim (email (state w)) ≠ [] →
  trim (subject (state w)) ≠ [] → trim (message (state w)) ≠ [] →
  ¬ local_at_domain_tld (trim (email (state w))) →
  message_posted "Please enter a valid email address." "form-message error"
    w (handleFormSubmit w) ∧
  submitBtn_disabled (state (handleFormSubmit w))
    = submitBtn_disabled (state w) ∧
  Forall (λ t, task t = CompleteSubmission → t ∈ timers w)
    (timers (handleFormSubmit w)).
Proof.
  intros Hn He Hs Hm Hshape.
  apply test_emailRegex_false in Hshape.
  unfold handleFormSubmit. rewrite Hshape. simpl.
  destruct (trim (fullName (state w))); [done|].
  destruct (trim (email (state w))); [done|].
  destruct (trim (subject (state w))); [done|].
  destruct (trim (message (state w))); [done|]. simpl.
  split_and!.
  - apply showFormMessage_posted.
  - done.
  - simpl. apply Forall_app. split.
    + apply Forall_forall. auto.
    + constructor; [|constructor]. simpl. discriminate.
Qed.

(** A callback leaves the clock alone and registers at most a timer that
    hides the message 5000 ms later, at the end of the queue. *)
Lemma run_task_timers t (w : Page) :
  now (run_task t w) = now w ∧
  ∃ extra, timers (run_task t w) = timers w ++ extra ∧
           Forall (λ u, due u = now w + 5000) extra ∧
           (pending_weight weight extra + 1 ≤ weight t)%nat.
Proof.
  destruct t; simpl; (split; [done|]).
  - exists []. rewrite app_nil_r. split_and!; [done | constructor | simpl; lia].
  - eexists [_]. split_and!; [done | by repeat constructor | simpl; lia].
Qed.

Lemma run_task_weight t (w : Page) :
  (pending_weight weight (timers (run_task t w)) + 1
   ≤ weight t + pending_weight weight (timers w))%nat.
Proof.
  destruct (run_task_timers t w) as (_ & extra & -> & _ & Hw).
  rewrite pending_weight_app. lia.
Qed.

(** Letting time pass always comes to an end with nothing left due. *)
Lemma page_settles horizon (w : Page) :
  quiet horizon (timers (advance_to horizon w)).
Proof. apply EventLoopFacts.advance_to_settles, run_task_weight. Qed.

Lemma run_task_CompleteSubmission (w : Page) :
  submission_completed (state (run_task CompleteSubmission w)).
Proof. unfold submission_completed. done. Qed.

Lemma cons_mid_cases {A} (pre post l1 l2 : list A) (o t : A) :
  pre ++ o :: post = l1 ++ t :: l2 →
  (∃ m, pre = l1 ++ t :: m ∧ l2 = m ++ o :: post) ∨
  (pre = l1 ∧ o = t ∧ post = l2) ∨
  (∃ m, l1 = pre ++ o :: m ∧ post = m ++ t :: l2).
Proof.
  revert l1. induction pre as [|a pre IH]; intros [|b l1]; simpl; intros [= ].
  - subst. right. left. done.
  - subst. right. right. by exists l1.
  - subst. left. by exists pre.
  - subst. match goal with X : _ ++ _ = _ ++ _ |- _ =>
      destruct (IH _ X) as [(m & -> & ->) | [(-> & -> & ->) | (m & -> & ->)]] end.
    + left. by exists m.
    + right. left. done.
    + right. right. by exists m.
Qed.

(** A pending submission that is due at [horizon] is the last callback to
    run by [horizon], whatever else is pending: timers registered before
    it run before it, and what callbacks register meanwhile is due
    later. *)
Lemma run_until_completes (horizon : Z) (fuel : nat) :
  ∀ (w : Page) pre o post,
    timers w = pre ++ o :: post →
    task o = CompleteSubmission → due o = horizon →
    quiet horizon post →
    horizon - 5000 < now w →
    (pending_weight weight (timers w) ≤ fuel)%nat →
    submission_completed (state (run_until run_task fuel horizon w)).
Proof.
  induction fuel as [|fuel IH]; intros w pre o post Ht Ho Hdue Hpost Hnow Hf.
  - exfalso. rewrite Ht, pending_weight_app, pending_weight_cons, Ho in Hf.
    simpl in Hf. lia.
  - simpl. unfold fire.
    destruct (pop_earliest (timers w)) as [[t rest]|] eqn:E.
    2:{ apply pop_earliest_nil in E. rewrite E in Ht.
        by destruct pre. }
    apply pop_earliest_split in E as (l1 & l2 & Hl & -> & H1 & H2).
    rewrite Hl in Ht. symmetry in Ht.
    apply cons_mid_cases in Ht
      as [(m & -> & ->) | [(-> & -> & ->) | (m & -> & ->)]].
    + (* an earlier timer goes first *)
      assert (Hle : due t ≤ horizon).
      { apply Forall_app in H2 as [_ H2].
        apply Forall_cons_1 in H2 as [H2 _]. lia. }
      rewrite (proj2 (Z.leb_le _ _) Hle).
      match goal with |- context [run_task (task t) ?w0] =>
        destruct (run_task_timers (task t) w0) as (Hn & extra & Hx & Hd & Hw);
        pose proof (IH (run_task (task t) w0) (l1 ++ m) o (post ++ extra))
          as IH'
      end.
      simpl in *. apply IH'; try done.
      * rewrite Hx. by rewrite <- !app_assoc.
      * apply Forall_app. split; [done|].
        eapply Forall_impl; [exact Hd|]. simpl. intros; lia.
      * lia.
      * rewrite Hx, pending_weight_app.
        rewrite Hl in Hf.
        rewrite !pending_weight_app, !pending_weight_cons in Hf.
        rewrite !pending_weight_app, pending_weight_cons.
        rewrite pending_weight_app in Hf. rewrite pending_weight_cons in Hf.
        lia.
    + (* the submission itself *)
      assert (Hle : due t ≤ horizon) by lia.
      rewrite (proj2 (Z.leb_le _ _) Hle).
      rewrite Ho.
      rewrite run_until_quiet; [apply run_task_CompleteSubmission|].
      simpl. unfold quiet. rewrite !Forall_app. split_and!.
      * eapply Forall_impl; [exact H1|]. simpl. intros; lia.
      * exact Hpost.
      * repeat constructor. simpl. lia.
    + (* nothing that is due later can go first *)
      exfalso. apply Forall_app in H1 as [_ H1].
      apply Forall_cons_1 in H1 as [H1 _].
      apply Forall_app in Hpost as [_ Hpost].
      apply Forall_cons_1 in Hpost as [Hpost _]. lia.
Qed.

(** C4: when the four trimmed fields are non-empty and the trimmed email
    matches [emailRegex], the handler disables the submit button at once,
    leaving the fields as typed, and registers the submission 2000 ms
    ahead; while nothing else is due the page stays so; and once 2000 ms
    have passed the four fields are empty, the success message is shown
    and the button is enabled again, whatever other timers were pending. *)
Theorem handleFormSubmit_valid (w : Page) :
  trim (fullName (state w)) ≠ [] → trim (email (state w)) ≠ [] →
  trim (subject (state w)) ≠ [] → trim (message (state w)) ≠ [] →
  test emailRegex (trim (email (state w))) = true →
  (submitBtn_disabled (state (handleFormSubmit w)) = true ∧
   same_fields (state w) (state (handleFormSubmit w)) ∧
   timers (handleFormSubmit w)
     = timers w ++ [ {| timer_id := next_id w;
                        due := now w + 2000;
                        task := CompleteSubmission |} ]) ∧
  (∀ t, t < now w + 2000 → quiet t (timers w) →
     state (advance_to t (handleFormSubmit w)) = state (handleFormSubmit w)) ∧
  submission_completed (state (advance_to (now w + 2000) (handleFormSubmit w))).
Proof.
  intros Hn He Hs Hm Hre.
  assert (E : handleFormSubmit w
              = snd (setTimeout CompleteSubmission 2000
                       (set_state (set_submitBtn true "Sending..." (state w)) w))).
  { unfold handleFormSubmit. rewrite Hre. simpl.
    destruct (trim (fullName (state w))); [done|].
    destruct (trim (email (state w))); [done|].
    destruct (trim (subject (state w))); [done|].
    destruct (trim (message (state w))); [done|]. done. }
  rewrite E. split_and!.
  - done.
  - unfold same_fields. done.
  - done.
  - intros t Ht Hq. unfold advance_to.
    rewrite advance_to_quiet; [done|].
    simpl. apply Forall_app. split; [done|].
    repeat constructor. simpl. lia.
  - unfold advance_to, EventLoop.advance_to. simpl state.
    eapply (run_until_completes (now w + 2000) _ _ (timers w) _ []);
      [ reflexivity | done | done | constructor | simpl; lia | done ].
Qed.

Example test_emailRegex_accepts :
  test emailRegex (typed "ada@example.org") = true.
Proof. reflexivity. Qed.

Example test_emailRegex_rejects :
  test emailRegex (typed "ada@example") = false
  ∧ test emailRegex (typed "ada lovelace@example.org") = false
  ∧ test emailRegex (typed "@example.org") = false.
Proof. split_and!; reflexivity. Qed.

Example trim_strips_both_ends :
  trim (typed "  ada  ") = typed "ada" ∧ trim (typed "   ") = [].
Proof. split; reflexivity. Qed.

Lemma handleFormSubmit_empty_field_witness :
  let w := fill "Ada" "ada@example.org" "   " "Hello" blank in
  formMessage_textContent (state (handleFormSubmit w))
    = "Please fill in all fields."
  ∧ submitBtn_disabled (state (handleFormSubmit w)) = false.
Proof.
  intros w.
  destruct (handleFormSubmit_empty_field w) as ((Ht & _) & Hd & _).
  { right. right. left. vm_compute. reflexivity. }
  split; [exact Ht | exact Hd].
Defined.

Lemma handleFormSubmit_malformed_email_witness :
  let w := fill "Ada" "ada@example" "Hi" "Hello" blank in
  formMessage_textContent (state (handleFormSubmit w))
    = "Please enter a valid email address.".
Proof.
  intros w.
  destruct (handleFormSubmit_malformed_email w) as ((Ht & _) & _).
  - vm_compute. discriminate.
  - vm_compute. discriminate.
  - vm_compute. discriminate.
  - vm_compute. discriminate.
  - apply test_emailRegex_false. vm_compute. reflexivity.
  - exact Ht.
Defined.

Lemma handleFormSubmit_valid_witness :
  let w := fill "Ada" " ada@example.org " "Hi" "Hello" blank in
  submitBtn_disabled (state (handleFormSubmit w)) = true
  ∧ submission_completed (state (advance_to 2000 (handleFormSubmit w))).
Proof.
  intros w.
  destruct (handleFormSubmit_valid w) as ((Hd & _) & _ & Hc).
  - vm_compute. discriminate.
  - vm_compute. discriminate.
  - vm_compute. discriminate.
  - vm_compute. discriminate.
  - vm_compute. reflexivity.
  - split; [exact Hd | exact Hc].
Defined.

(** On a page with no timer pending, a message that [showFormMessage] puts
    up stays shown for 5000 ms and is hidden from then on. *)
Lemma showFormMessage_idle msg type (w : Page) :
  timers w = [] →
  (∀ t, t < now w + 5000 →
     message_shown (state (advance_to t (showFormMessage msg type w))) = true) ∧
  (∀ t, now w + 5000 ≤ t →
     message_shown (state (advance_to t (showFormMessage msg type w))) = false).
Proof.
  intros Hw. split; intros t Ht.
  - unfold advance_to. rewrite advance_to_quiet.
    + unfold message_shown. simpl. reflexivity.
    + simpl. rewrite Hw. repeat constructor. simpl. lia.
  - unfold advance_to, EventLoop.advance_to, showFormMessage. simpl.
    rewrite Hw. simpl. unfold fire. simpl.
    rewrite (proj2 (Z.leb_le _ _)) by lia. simpl. done.
Qed.

(** C9: the second error message is put up at time 4000 and is hidden at
    time 5000, by the timer that the first message left behind: it was
    shown for 1000 ms, not for 5000 ms. *)
Theorem showFormMessage_hidden_early :
  now sent_twice = 4000 ∧
  formMessage_textContent (state sent_twice)
    = "Please enter a valid email address." ∧
  message_shown (state sent_twice) = true ∧
  message_shown (state (advance_to 4999 sent_twice)) = true ∧
  message_shown (state (advance_to 5000 sent_twice)) = false ∧
  message_shown (state (advance_to 8999 sent_twice)) = false.
Proof. split_and!; reflexivity. Qed.

Lemma handleFormSubmit_submits (w : Page) :
  trim (fullName (state w)) ≠ [] → trim (email (state w)) ≠ [] →
  trim (subject (state w)) ≠ [] → trim (message (state w)) ≠ [] →
  test emailRegex (trim (email (state w))) = true →
  handleFormSubmit w
  = snd (setTimeout CompleteSubmission 2000
           (set_state (set_submitBtn true "Sending..." (state w)) w)).
Proof.
  intros Hn He Hs Hm Hre. unfold handleFormSubmit. rewrite Hre. simpl.
  destruct (trim (fullName (state w))); [done|].
  destruct (trim (email (state w))); [done|].
  destruct (trim (subject (state w))); [done|].
  destruct (trim (message (state w))); [done|]. done.
Qed.

Lemma js_not_true (s : jsstring) : js_not s = true ↔ s = [].
Proof. by destruct s. Qed.

(** The handler asks to fill in all fields exactly when one of the four
    fields holds nothing but white space: its result is then, and only
    then, that of [showFormMessage('Please fill in all fields.',
    'error')]. *)
Theorem handleFormSubmit_blank_field (w : Page) :
  blank_field (fullName (state w)) ∨ blank_field (email (state w)) ∨
  blank_field (subject (state w)) ∨ blank_field (message (state w))
  ↔ handleFormSubmit w = showFormMessage "Please fill in all fields." "error" w.
Proof.
  unfold blank_field. rewrite <- !trim_nil, <- !js_not_true.
  rewrite <- !orb_true_iff, !orb_assoc.
  unfold handleFormSubmit.
  destruct (js_not (trim (fullName (state w)))
            || js_not (trim (email (state w)))
            || js_not (trim (subject (state w)))
            || js_not (trim (message (state w)))); [done|].
  split; [done|].
  destruct (negb (test emailRegex (trim (email (state w))))).
  - intros H. apply (f_equal (λ v, formMessage_textContent (state v))) in H.
    simpl in H. discriminate.
  - intros H. apply (f_equal timers) in H. simpl in H.
    apply app_inv_head in H. discriminate.
Qed.

(** An address that [emailRegex] accepts has exactly one [@], holds no
    white space, holds a dot, and is at least five characters long. *)
Theorem test_emailRegex_accepts_only (s : jsstring) :
  test emailRegex s = true →
  length (filter (λ c, c = 64%N) s) = 1%nat ∧
  Forall (λ c, is_space c = false) s ∧
  46%N ∈ s ∧
  (5 ≤ length s)%nat.
Proof.
  intros H. apply test_emailRegex in H as (l & d & t & -> & Hl & Hd & Ht).
  assert (Hno : ∀ u, word u → filter (λ c, c = 64%N) u = []
                              ∧ Forall (λ c, is_space c = false) u
                              ∧ (1 ≤ length u)%nat).
  { intros u [Hne Hu]. split_and!.
    - clear Hne. induction Hu as [|c u [_ Hc] _ IH]; [done|].
      by rewrite filter_cons_False.
    - eapply Forall_impl; [exact Hu|]. by intros c [? _].
    - destruct u; [done | simpl; lia]. }
  destruct (Hno l Hl) as (Fl & Sl & Ll).
  destruct (Hno d Hd) as (Fd & Sd & Ld).
  destruct (Hno t Ht) as (Ft & St & Lt).
  split_and!.
  - rewrite filter_app, filter_cons_True by done.
    rewrite filter_app, filter_cons_False by done.
    by rewrite Fl, Fd, Ft.
  - apply Forall_app. split; [done|]. constructor; [done|].
    apply Forall_app. split; [done|]. by constructor.
  - set_solver.
  - rewrite length_app. simpl. rewrite length_app. simpl. lia.
Qed.

Lemma test_emailRegex_accepts_only_witness :
  length (filter (λ c, c = 64%N) (typed "ada@example.org")) = 1%nat.
Proof.
  apply (test_emailRegex_accepts_only (typed "ada@example.org")).
  reflexivity.
Defined.

(** A valid form sent from a page with no timer pending runs its whole
    course: from 2000 ms on the fields are empty, the success message is
    shown and the button is enabled; from 7000 ms on the message is hidden
    again and no timer is left. *)
Theorem handleFormSubmit_course (w : Page) :
  timers w = [] →
  trim (fullName (state w)) ≠ [] → trim (email (state w)) ≠ [] →
  trim (subject (state w)) ≠ [] → trim (message (state w)) ≠ [] →
  test emailRegex (trim (email (state w))) = true →
  (∀ t, now w + 2000 ≤ t → t < now w + 7000 →
     submission_completed (state (advance_to t (handleFormSubmit w))) ∧
     message_shown (state (advance_to t (handleFormSubmit w))) = true) ∧
  (∀ t, now w + 7000 ≤ t →
     submission_over (state (advance_to t (handleFormSubmit w))) ∧
     timers (advance_to t (handleFormSubmit w)) = []).
Proof.
  intros Hw Hn He Hs Hm Hre.
  rewrite (handleFormSubmit_submits w Hn He Hs Hm Hre).
  unfold advance_to, EventLoop.advance_to. simpl. rewrite Hw. simpl.
  change (Z.max 0 2000) with 2000.
  split; intros t Ht.
  - intros Ht'.
    erewrite fire_one; [| reflexivity | simpl; lia ]. simpl.
    change (Z.max 0 5000) with 5000.
    rewrite fire_quiet; [| repeat constructor; simpl; lia ].
    unfold submission_completed. done.
  - erewrite fire_one; [| reflexivity | simpl; lia ]. simpl.
    change (Z.max 0 5000) with 5000.
    erewrite fire_one; [| reflexivity | simpl; lia ]. simpl.
    unfold submission_over. done.
Qed.

Lemma handleFormSubmit_course_witness :
  let w := fill "Ada" "ada@example.org" "Hi" "Hello" blank in
  submission_over (state (advance_to 7000 (handleFormSubmit w))).
Proof.
  intros w.
  destruct (handleFormSubmit_course w) as (_ & H).
  - reflexivity.
  - vm_compute. discriminate.
  - vm_compute. discriminate.
  - vm_compute. discriminate.
  - vm_compute. discriminate.
  - vm_compute. reflexivity.
  - apply (H 7000). simpl. lia.
Defined.

End ContactFormFacts.

(** ** [debounce] and [throttle] *)

Module RateLimitFacts.

Import EventLoop EventLoopFacts RateLimit.

Local Open Scope Z_scope.

Section DebounceFacts.

Context {A U : Type}.
Variable func : A → U → U.
Variable wait : Z.
Hypothesis wait_nonneg : 0 ≤ wait.
Hypothesis wait_long : wait < 2147483648.

Implicit Types (w : World (@DTask A) (@Debounced A U)) (u : U) (args : A).
Implicit Types (seen : Observed A U).

(** A wait below 2^31 is read as it is. *)
Lemma delay_wait : Z.max 0 (long wait) = wait.
Proof. rewrite long_small by lia. lia. Qed.

Lemma executedFunction_first u t0 args :
  armed wait u t0 args (executedFunction wait args (debounce_init t0 u)).
Proof.
  unfold armed, executedFunction, debounce_init. simpl.
  split_and!; [done | done |]. exists 1%nat.
  by rewrite delay_wait.
Qed.

Lemma executedFunction_again u t args t' args' w :
  armed wait u t args w → t ≤ t' → t' < t + wait →
  armed wait u t' args' (executedFunction wait args' (d_advance_to func t' w)).
Proof.
  intros (Hn & Hs & id & Hid & Ht) Hle Hlt.
  unfold d_advance_to. rewrite advance_to_quiet.
  2:{ rewrite Ht. repeat constructor. simpl. lia. }
  unfold armed, executedFunction. simpl. rewrite Hid, Ht. simpl.
  rewrite filter_cons_False by (simpl; auto). rewrite filter_nil. simpl.
  split_and!; [lia | done |]. exists (next_id w).
  split; [done|]. rewrite Hn, Z.max_r by done. by rewrite delay_wait.
Qed.

Lemma d_calls_armed u rest :
  ∀ t args w,
    armed wait u t args w → spaced_within wait t rest = true →
    armed wait u (fst (final_call (t, args) rest))
      (snd (final_call (t, args) rest)) (d_calls func wait rest w).
Proof.
  induction rest as [|[t' args'] rest IH]; intros t args w Hw Hs; simpl.
  - exact Hw.
  - simpl in Hs. apply andb_true_iff in Hs as [Hs Hr].
    apply andb_true_iff in Hs as [H1 H2].
    apply Z.leb_le in H1. apply Z.ltb_lt in H2.
    apply IH; [|done]. by eapply executedFunction_again.
Qed.

Lemma armed_before u t args w horizon :
  armed wait u t args w → horizon < t + wait →
  d_seen (state (d_advance_to func horizon w))
    = {| user := u; invocations := [] |}.
Proof.
  intros (Hn & Hs & id & Hid & Ht) Hlt.
  unfold d_advance_to. rewrite advance_to_quiet; [done|].
  rewrite Ht. repeat constructor. simpl. lia.
Qed.

Lemma armed_after u t args w horizon :
  armed wait u t args w → t + wait ≤ horizon →
  d_seen (state (d_advance_to func horizon w))
    = {| user := func args u; invocations := [ (t + wait, args) ] |}.
Proof.
  intros (Hn & Hs & id & Hid & Ht) Hle.
  unfold d_advance_to, advance_to. rewrite Ht. simpl.
  unfold fire. rewrite Ht. simpl.
  rewrite (proj2 (Z.leb_le _ _) Hle). simpl.
  rewrite Hid. simpl. rewrite Hs. unfold invoke. simpl.
  rewrite Hn. by rewrite Z.max_r by lia.
Qed.

(** Letting time pass comes to an end with nothing left due. *)
Lemma debounced_settles horizon w :
  quiet horizon (timers (d_advance_to func horizon w)).
Proof.
  apply advance_to_settles. intros [args] w'. simpl.
  unfold later, clearTimeout.
  destruct (timeout (state w')) as [id|]; simpl; [|lia].
  pose proof (pending_weight_filter d_weight
                (λ t, timer_id t ≠ id) (timers w')). lia.
Qed.

Lemma advance_waiting_early seen t args w horizon :
  waiting wait seen t args w → horizon < t + wait →
  d_advance_to func horizon w
  = {| now := Z.max (now w) horizon; next_id := next_id w;
       timers := timers w; state := state w |}.
Proof.
  intros (Hn & Hs & id & Hid & Ht) Hlt. unfold d_advance_to.
  apply advance_to_quiet. rewrite Ht. repeat constructor. simpl. lia.
Qed.

Lemma advance_waiting_late seen t args w horizon :
  waiting wait seen t args w → t + wait ≤ horizon →
  settled (invoke func (t + wait) args seen) (d_advance_to func horizon w) ∧
  now (d_advance_to func horizon w) = horizon.
Proof.
  intros (Hn & Hs & id & Hid & Ht) Hle.
  unfold d_advance_to, advance_to. rewrite Ht. simpl.
  erewrite fire_one; [| exact Ht | simpl; lia ]. simpl.
  rewrite Hid. simpl. rewrite filter_nil. simpl.
  unfold settled. simpl. rewrite Hs, Hn.
  rewrite (Z.max_r t (t + wait)) by lia.
  split; [done|]. lia.
Qed.

Lemma call_settled_now seen args w :
  settled seen w →
  waiting wait seen (now w) args (executedFunction wait args w).
Proof.
  intros (Ht & Hs).
  unfold waiting, executedFunction, clearTimeout. simpl.
  destruct (timeout (state w)) as [id|]; simpl; rewrite Ht;
    rewrite ?filter_nil; simpl;
    (split_and!; [done | done |]); exists (next_id w);
    (split; [done|]); by rewrite delay_wait.
Qed.

Lemma call_settled seen t args w :
  settled seen w → now w ≤ t →
  waiting wait seen t args (executedFunction wait args (d_advance_to func t w)).
Proof.
  intros Hs Hn. unfold d_advance_to.
  rewrite advance_to_quiet by (rewrite (proj1 Hs); constructor).
  rewrite Z.max_r by lia.
  exact (call_settled_now seen args
           {| now := t; next_id := next_id w; timers := timers w;
              state := state w |} Hs).
Qed.

(** A further call in the same task takes the place of the one that
    waits: no time has passed, whatever [wait] is. *)
Lemma call_waiting_same seen t args args' w :
  waiting wait seen t args w →
  waiting wait seen t args' (executedFunction wait args' w).
Proof.
  intros (Hn & Hs & id & Hid & Ht).
  unfold waiting, executedFunction, clearTimeout. rewrite Hid. simpl.
  rewrite Ht. rewrite filter_cons_False by (simpl; auto).
  rewrite filter_nil. simpl.
  split_and!; [done | done |]. exists (next_id w).
  split; [done|]. by rewrite Hn, delay_wait.
Qed.

Lemma call_waiting_early seen t args t' args' w :
  waiting wait seen t args w → t ≤ t' → t' < t + wait →
  waiting wait seen t' args' (executedFunction wait args' (d_advance_to func t' w)).
Proof.
  intros Hw Hle Hlt. rewrite (advance_waiting_early seen t args w t' Hw Hlt).
  destruct Hw as (Hn & Hs & id & Hid & Ht).
  unfold waiting, executedFunction. simpl. rewrite Hid, Ht. simpl.
  rewrite filter_cons_False by (simpl; auto). rewrite filter_nil. simpl.
  split_and!; [lia | done |]. exists (next_id w).
  split; [done|]. rewrite Hn, Z.max_r by done. by rewrite delay_wait.
Qed.

Lemma call_waiting_late seen t args t' args' w :
  waiting wait seen t args w → t + wait ≤ t' →
  waiting wait (invoke func (t + wait) args seen) t' args'
    (executedFunction wait args' (d_advance_to func t' w)).
Proof.
  intros Hw Hle.
  destruct (advance_waiting_late seen t args w t' Hw Hle) as [Hs Hn].
  pose proof (call_settled_now _ args' _ Hs) as H.
  by rewrite Hn in H.
Qed.

Lemma others_waiting (others : list A) :
  ∀ seen t args w,
    waiting wait seen t args w →
    waiting wait seen t (default args (last others))
      (fold_left (λ w args, executedFunction wait args w) others w).
Proof.
  induction others as [|a others IH]; intros seen t args w Hw; simpl.
  - exact Hw.
  - rewrite last_cons.
    pose proof (IH seen t a _ (call_waiting_same seen t args a w Hw)) as H.
    by destruct (last others).
Qed.

Lemma replay_invocations (passed : list (Z * A)) seen :
  invocations (replay func passed seen) = invocations seen ++ passed ∧
  user (replay func passed seen)
    = fold_left (λ u c, func (snd c) u) passed (user seen).
Proof.
  revert seen. induction passed as [|[t a] passed IH]; intros seen; simpl.
  - by rewrite app_nil_r.
  - destruct (IH (invoke func t a seen)) as [I1 I2]. unfold replay in *.
    simpl. rewrite I1, I2. simpl. by rewrite <- app_assoc.
Qed.

Lemma d_bursts_waiting rest :
  ∀ seen t args w,
    waiting wait seen t args w → bursts_ordered t rest = true →
    ∃ seen',
      waiting wait seen' (last_time t (map last_call rest))
        (snd (final_call (t, args) (map last_call rest)))
        (d_bursts func wait rest w) ∧
      replay func
        [ (last_time t (map last_call rest) + wait,
           snd (final_call (t, args) (map last_call rest))) ] seen'
        = replay func (debounced wait ((t, args) :: map last_call rest)) seen.
Proof.
  induction rest as [|b rest IH]; intros seen t args w Hw Ho.
  - exists seen. by split.
  - simpl in Ho. apply andb_true_iff in Ho as [H1 Ho]. apply Z.leb_le in H1.
    change (map last_call (b :: rest))
      with ((b_time b, default (b_first b) (last (b_others b)))
            :: map last_call rest).
    cbn [d_bursts last_time final_call].
    change (debounced wait
              ((t, args)
               :: (b_time b, default (b_first b) (last (b_others b)))
               :: map last_call rest))
      with (if b_time b <? t + wait
            then debounced wait
                   ((b_time b, default (b_first b) (last (b_others b)))
                    :: map last_call rest)
            else (t + wait, args)
                 :: debounced wait
                      ((b_time b, default (b_first b) (last (b_others b)))
                       :: map last_call rest)).
    unfold d_burst.
    destruct (b_time b <? t + wait) eqn:C.
    + apply Z.ltb_lt in C.
      apply (IH seen (b_time b)); [|done].
      apply others_waiting. by eapply call_waiting_early.
    + apply Z.ltb_ge in C.
      destruct (IH (invoke func (t + wait) args seen) (b_time b)
                  (default (b_first b) (last (b_others b)))
                  (fold_left (λ w args, executedFunction wait args w)
                     (b_others b)
                     (executedFunction wait (b_first b)
                        (d_advance_to func (b_time b) w))))
        as (seen' & Hw' & Hr); [|done|].
      { apply others_waiting. by eapply call_waiting_late. }
      exists seen'. split; [done|]. rewrite Hr. done.
Qed.

Lemma d_bursts_reach bursts :
  ∀ seen w prev,
    settled seen w → now w ≤ prev → bursts_ordered prev bursts = true →
    (bursts = [] ∧ d_bursts func wait bursts w = w) ∨
    ∃ seen' args,
      waiting wait seen' (last_time prev (map last_call bursts)) args
        (d_bursts func wait bursts w) ∧
      replay func [ (last_time prev (map last_call bursts) + wait, args) ] seen'
        = replay func (debounced wait (map last_call bursts)) seen.
Proof.
  intros seen w prev Hs Hn Ho. destruct bursts as [|b rest].
  - by left.
  - right. simpl in Ho. apply andb_true_iff in Ho as [H1 Ho].
    apply Z.leb_le in H1.
    destruct (d_bursts_waiting rest seen (b_time b)
                (default (b_first b) (last (b_others b))) (d_burst func wait b w))
      as (seen' & Hw & Hr); [|done|].
    { unfold d_burst. apply others_waiting. apply call_settled; [done | lia]. }
    by eexists seen', _.
Qed.

End DebounceFacts.

(** C5 (as amended): let [wait] be at least 0 and below 2^31, and let the
    debounced function be called one or more times, each call strictly
    less than [wait] after the one before. Then [func] is invoked exactly
    once: not before [wait] has passed since the last call, and at that
    time with the arguments of the last call. *)
Theorem debounce_invokes_once_after_last_call {A U : Type}
    (func : A → U → U) (wait : Z) (u : U)
    (t1 : Z) (args1 : A) (rest : list (Z * A)) :
  0 ≤ wait → wait < 2147483648 →
  spaced_within wait t1 rest = true →
  let w := d_calls func wait ((t1, args1) :: rest) (debounce_init t1 u) in
  let tN := fst (final_call (t1, args1) rest) in
  let argsN := snd (final_call (t1, args1) rest) in
  (∀ T, T < tN + wait →
     d_seen (state (d_advance_to func T w))
       = {| user := u; invocations := [] |}) ∧
  (∀ T, tN + wait ≤ T →
     d_seen (state (d_advance_to func T w))
       = {| user := func argsN u; invocations := [ (tN + wait, argsN) ] |}).
Proof.
  intros Hw Hl Hs w tN argsN.
  assert (Ha : armed wait u tN argsN w).
  { unfold w, tN, argsN. simpl.
    apply d_calls_armed; [done | done | | done].
    unfold d_advance_to. rewrite advance_to_quiet by constructor.
    simpl. rewrite Z.max_id.
    by apply executedFunction_first. }
  split; intros T HT.
  - by eapply armed_before.
  - by eapply armed_after.
Qed.

(** C5 (as stated) fails for a wait of 2^31 ms: [setTimeout] reads it as a
    negative delay, each timer is due at once, and of two calls 100 ms
    apart each is passed on, neither of them 2^31 ms after the last. *)
Lemma debounce_wait_too_long :
  let wait := 2147483648 in
  let seen := d_seen (state (d_advance_to keep (100 + wait)
                               (d_calls keep wait [ (0, 1%nat); (100, 2%nat) ]
                                  (debounce_init 0 [])))) in
  spaced_within wait 0 [ (100, 2%nat) ] = true ∧
  map snd (invocations seen) = [ 1%nat; 2%nat ] ∧
  invocations seen ≠ [ (100 + wait, 2%nat) ].
Proof. split_and!; [reflexivity | reflexivity | discriminate]. Qed.

(** Debouncing in general: let [wait] be at least 0 and below 2^31, let
    the tasks that call the debounced function come in the order of time,
    and let no call come at the very time at which the call before it
    falls due. Once [wait] has passed since the last call, [func] has been
    invoked for exactly those tasks that no other call followed within
    less than [wait], each [wait] after its task, with the arguments of
    the last call of that task and in the order of the tasks. *)
Theorem debounce_passes_exactly {A U : Type}
    (func : A → U → U) (wait : Z) (u : U) (t0 : Z)
    (bursts : list (Burst A)) :
  0 ≤ wait → wait < 2147483648 →
  bursts_ordered t0 bursts = true →
  untied wait (map last_call bursts) = true →
  ∀ T, last_time t0 (map last_call bursts) + wait ≤ T →
    d_seen (state (d_advance_to func T
                     (d_bursts func wait bursts (debounce_init t0 u))))
    = {| user := fold_left (λ u c, func (snd c) u)
                   (debounced wait (map last_call bursts)) u;
         invocations := debounced wait (map last_call bursts) |}.
Proof.
  intros Hw Hl Ho _ T HT.
  assert (Hs : settled {| user := u; invocations := [] |}
                 (debounce_init (A:=A) t0 u)) by done.
  destruct (d_bursts_reach func wait Hw Hl bursts _ _ t0 Hs (Z.le_refl _) Ho)
    as [[-> ->] | (seen' & args & Hwt & Hr)].
  - reflexivity.
  - destruct (advance_waiting_late func wait Hw _ _ _ _ T Hwt HT)
      as [[_ Hseen] _].
    rewrite Hseen.
    change (invoke func (last_time t0 (map last_call bursts) + wait) args seen')
      with (replay func
              [ (last_time t0 (map last_call bursts) + wait, args) ] seen').
    rewrite Hr.
    destruct (replay_invocations func (debounced wait (map last_call bursts))
                {| user := u; invocations := [] |}) as [I1 I2].
    destruct (replay func (debounced wait (map last_call bursts)) _)
      as [u' inv'].
    simpl in *. by rewrite I1, I2.
Qed.

Lemma debounce_passes_exactly_witness :
  invocations
    (d_seen (state (d_advance_to keep 2000
                      (d_bursts keep 250
                         [ mkBurst 0 1%nat [ 2%nat ]; mkBurst 100 3%nat [];
                           mkBurst 400 4%nat []; mkBurst 500 5%nat [ 6%nat ] ]
                         (debounce_init 0 [])))))
  = [ (350, 3%nat); (750, 6%nat) ].
Proof.
  rewrite (debounce_passes_exactly keep 250 [] 0
             [ mkBurst 0 1%nat [ 2%nat ]; mkBurst 100 3%nat [];
               mkBurst 400 4%nat []; mkBurst 500 5%nat [ 6%nat ] ]
             ltac:(lia) ltac:(lia) ltac:(reflexivity) ltac:(reflexivity)
             2000 ltac:(simpl; lia)).
  reflexivity.
Defined.

Section DebounceAny.

Context {A U : Type}.
Variable func : A → U → U.
Variable wait : Z.

Implicit Types (w : World (@DTask A) (@Debounced A U)) (args : A).

Lemma one_pending_call args w :
  one_pending w → one_pending (executedFunction wait args w).
Proof.
  intros Hw. right. unfold executedFunction, clearTimeout, setTimeout.
  destruct Hw as [Ht | (id & due & a & Hid & Ht)].
  - destruct (timeout (state w)) as [id|]; simpl; rewrite Ht;
      rewrite ?filter_nil; simpl; by eexists _, _, _.
  - rewrite Hid. simpl. rewrite Ht.
    rewrite filter_cons_False by (simpl; auto). rewrite filter_nil. simpl.
    by eexists _, _, _.
Qed.

Lemma one_pending_advance horizon w :
  one_pending w → one_pending (d_advance_to func horizon w).
Proof.
  intros [Ht | (id & due & a & Hid & Ht)]; unfold d_advance_to.
  - rewrite advance_to_quiet by (rewrite Ht; constructor). by left.
  - destruct (Z.le_gt_cases due horizon) as [Hle|Hgt].
    + left. unfold advance_to. rewrite Ht. simpl.
      erewrite fire_one; [| exact Ht | simpl; lia ]. simpl.
      rewrite Hid. simpl. by rewrite filter_nil.
    + rewrite advance_to_quiet
        by (rewrite Ht; repeat constructor; simpl; lia).
      right. by exists id, due, a.
Qed.

Lemma one_pending_calls calls :
  ∀ w, one_pending w → one_pending (d_calls func wait calls w).
Proof.
  induction calls as [|[t args] rest IH]; intros w Hw; simpl; [done|].
  by apply IH, one_pending_call, one_pending_advance.
Qed.

End DebounceAny.

(** A debounced function never lets timers pile up: after any calls made
    in the order of time, and however much time has passed since, at most
    one timer is pending. *)
Theorem debounce_one_timer {A U : Type}
    (func : A → U → U) (wait : Z) (u : U) (t0 : Z) (calls : list (Z * A)) :
  0 ≤ wait →
  time_ordered t0 calls = true →
  ∀ T, (length (timers (d_advance_to func T
                          (d_calls func wait calls (debounce_init t0 u)))) ≤ 1)%nat.
Proof.
  intros _ _ T.
  assert (H : one_pending
                (d_advance_to func T
                   (d_calls func wait calls (debounce_init t0 u)))).
  { apply one_pending_advance, one_pending_calls. by left. }
  destruct H as [-> | (id & due & a & _ & ->)]; simpl; lia.
Qed.

Lemma debounce_one_timer_witness :
  (length (timers (d_advance_to keep 120%Z
                     (d_calls keep 250%Z [ (0%Z, 1%nat); (100%Z, 2%nat) ]
                        (debounce_init 0%Z [])))) ≤ 1)%nat.
Proof.
  apply (debounce_one_timer keep 250 [] 0 [ (0, 1%nat); (100, 2%nat) ]
           ltac:(lia) ltac:(reflexivity)).
Defined.

Section ThrottleFacts.

Context {A U : Type}.
Variable func : A → U → Outcome U.
Variable limit : Z.

Implicit Types (w : World TTask (@Throttled A U)) (u : U) (args : A).
Implicit Types (seen : Observed A U).

Lemma throttled_now args w : now (throttled func limit args w) = now w.
Proof.
  unfold throttled. destruct (inThrottle (state w)); simpl; [done|].
  by destruct (func args (user (t_seen (state w)))).
Qed.

Lemma throttled_free_returns seen args u w :
  free seen w → func args (user seen) = Returns u →
  holding (noted (now w) args u seen) (now w + Z.max 0 (long limit))
    (throttled func limit args w).
Proof.
  intros (Hi & Ht & Hs) Hf. unfold holding, throttled.
  rewrite Hi, Hs, Hf. simpl. rewrite Ht.
  split_and!; [done | done |]. by exists (next_id w).
Qed.

Lemma throttled_free_throws seen args u w :
  free seen w → func args (user seen) = Throws u →
  free (noted (now w) args u seen) (throttled func limit args w).
Proof.
  intros (Hi & Ht & Hs) Hf. unfold free, throttled.
  rewrite Hi, Hs, Hf. simpl. by rewrite Ht.
Qed.

Lemma throttled_holding seen release args w :
  holding seen release w → throttled func limit args w = w.
Proof. intros (Hi & _). unfold throttled. by rewrite Hi. Qed.

Lemma advance_holding_early seen release w horizon :
  holding seen release w → horizon < release →
  holding seen release (t_advance_to horizon w) ∧
  now (t_advance_to horizon w) = Z.max (now w) horizon.
Proof.
  intros (Hi & Hs & id & Ht) Hlt. unfold t_advance_to.
  rewrite advance_to_quiet by (rewrite Ht; repeat constructor; simpl; lia).
  unfold holding. simpl. split_and!; [done | done | | done]. by exists id.
Qed.

Lemma advance_holding_late seen release w horizon :
  holding seen release w → release ≤ horizon → now w ≤ horizon →
  free seen (t_advance_to horizon w) ∧ now (t_advance_to horizon w) = horizon.
Proof.
  intros (Hi & Hs & id & Ht) Hle Hn.
  unfold t_advance_to, advance_to. rewrite Ht. simpl.
  erewrite fire_one; [| exact Ht | simpl; lia ]. simpl.
  unfold free. simpl. split; [done|]. lia.
Qed.

Lemma advance_free seen w horizon :
  free seen w → now w ≤ horizon →
  free seen (t_advance_to horizon w) ∧ now (t_advance_to horizon w) = horizon.
Proof.
  intros (Hi & Ht & Hs) Hn. unfold t_advance_to.
  rewrite advance_to_quiet by (rewrite Ht; constructor).
  unfold free. simpl. split; [done|]. lia.
Qed.

(** The passing of time alone never invokes [func]. *)
Lemma t_run_until_seen fuel horizon w :
  t_seen (state (run_until t_run_task fuel horizon w)) = t_seen (state w).
Proof.
  revert w. induction fuel as [|fuel IH]; intros w; simpl; [done|].
  unfold fire.
  destruct (pop_earliest (timers w)) as [[t rest]|]; [|done].
  destruct (due t <=? horizon); [|done].
  rewrite IH. by destruct (task t).
Qed.

Lemma t_advance_to_seen horizon w :
  t_seen (state (t_advance_to horizon w)) = t_seen (state w).
Proof. unfold t_advance_to, advance_to. simpl. apply t_run_until_seen. Qed.

Lemma throttled_settles horizon w :
  quiet horizon (timers (t_advance_to horizon w)).
Proof. apply advance_to_settles. intros [] w'. simpl. lia. Qed.




Section InRange.

Hypothesis limit_positive : 0 < limit.
Hypothesis limit_long : limit < 2147483648.



End InRange.



End ThrottleFacts.



Section ThrottleRun.

Context {A U : Type}.
Variable func : A → U → Outcome U.
Variable limit : Z.
Hypothesis limit_low : - 2147483648 ≤ limit.
Hypothesis limit_long : limit < 2147483648.

Implicit Types (w : World TTask (@Throttled A U)) (u : U) (args : A).
Implicit Types (seen : Observed A U).

Lemma delay_limit_any : Z.max 0 (long limit) = Z.max 0 limit.
Proof. by rewrite long_small by lia. Qed.

Lemma fold_holding (argss : list A) seen release w :
  holding seen release w →
  fold_left (λ w args, throttled func limit args w) argss w = w.
Proof.
  intros Hh. induction argss as [|args rest IH]; simpl; [done|].
  by rewrite (throttled_holding func limit seen release args w Hh).
Qed.

(** The calls of one task on a closure that is free. *)
Lemma fold_free (argss : list A) :
  ∀ seen w,
    free seen w →
    let w' := fold_left (λ w args, throttled func limit args w) argss w in
    now w' = now w ∧
    t_seen (state w') = fst (pass_burst func (now w) argss seen) ∧
    if snd (pass_burst func (now w) argss seen)
    then holding (fst (pass_burst func (now w) argss seen))
           (now w + Z.max 0 limit) w'
    else free (fst (pass_burst func (now w) argss seen)) w'.
Proof.
  induction argss as [|args rest IH]; intros seen w Hf; simpl.
  - split_and!; [done | by destruct Hf as (_ & _ & ?) | done].
  - destruct (func args (user seen)) as [u|u] eqn:E.
    + pose proof (throttled_free_returns func limit seen args u w Hf E) as Hh.
      rewrite delay_limit_any in Hh.
      rewrite (fold_holding rest _ _ _ Hh). simpl.
      split_and!; [apply throttled_now | by destruct Hh as (_ & ? & _) | done].
    + pose proof (throttled_free_throws func limit seen args u w Hf E) as Hf'.
      destruct (IH _ _ Hf') as (Hn & Hs & Hc).
      rewrite throttled_now in Hn, Hs, Hc. by split_and!.
Qed.

Lemma t_bursts_run bursts :
  ∀ seen w prev release,
    now w ≤ prev → bursts_ordered prev bursts = true →
    match release with
    | None => free seen w
    | Some r => holding seen r w
    end →
    t_seen (state (t_bursts func limit bursts w))
      = throttle_passes func (Z.max 0 limit) release bursts seen.
Proof.
  induction bursts as [|b rest IH]; intros seen w prev release Hn Ho Hw.
  - simpl. destruct release as [r|].
    + by destruct Hw as (_ & ? & _).
    + by destruct Hw as (_ & _ & ?).
  - simpl in Ho. apply andb_true_iff in Ho as [H1 Ho]. apply Z.leb_le in H1.
    cbn [t_bursts throttle_passes]. unfold t_burst.
    assert (Hfree : ∀ w1, free seen w1 → now w1 = b_time b →
              t_seen (state (t_bursts func limit rest
                 (fold_left (λ w args, throttled func limit args w)
                    (b_first b :: b_others b) w1)))
              = (let (o', holds) :=
                   pass_burst func (b_time b) (b_first b :: b_others b) seen in
                 throttle_passes func (Z.max 0 limit)
                   (if holds then Some (b_time b + Z.max 0 limit) else None)
                   rest o')).
    { intros w1 Hf1 Hn1.
      destruct (fold_free (b_first b :: b_others b) seen w1 Hf1)
        as (Hn' & Hs' & Hc'). rewrite Hn1 in Hn', Hs', Hc'.
      destruct (pass_burst func (b_time b) (b_first b :: b_others b) seen)
        as [o' holds]. simpl in Hs', Hc'.
      destruct holds.
      - apply (IH o' _ (b_time b) (Some (b_time b + Z.max 0 limit)));
          [lia | done | done].
      - apply (IH o' _ (b_time b) None); [lia | done | done]. }
    destruct release as [r|].
    + destruct (b_time b <? r) eqn:C.
      * apply Z.ltb_lt in C.
        destruct (advance_holding_early seen r w (b_time b) Hw C)
          as [Hh Hnow].
        rewrite (fold_holding _ _ _ _ Hh).
        apply (IH seen _ (b_time b) (Some r)); [|done|done].
        rewrite Hnow. lia.
      * apply Z.ltb_ge in C.
        destruct (advance_holding_late seen r w (b_time b) Hw C)
          as [Hf Hnow]; [lia|].
        by apply Hfree.
    + destruct (advance_free seen w (b_time b) Hw) as [Hf Hnow];
        [lia|].
      by apply Hfree.
Qed.

End ThrottleRun.

(** Throttling in general: let [limit] lie between -2^31 and 2^31, let the
    tasks that call the throttled function come in the order of time, and
    let no task come at the very time at which a hold ends. Then what
    [func] was invoked for, and what it left, is what [throttle_passes]
    says: a task that comes before the hold set by an earlier call has
    ended is dropped whole and for good; in any other task the calls are
    passed on one by one until one of them returns, which sets a hold of
    [limit] ms (none at all when [limit] is negative) and drops the calls
    left in the task. A call that throws sets no hold. *)
Theorem throttle_passes_exactly {A U : Type}
    (func : A → U → Outcome U) (limit : Z) (u : U) (t0 : Z)
    (bursts : list (Burst A)) :
  - 2147483648 ≤ limit → limit < 2147483648 →
  bursts_ordered t0 bursts = true →
  apart (Z.max 0 limit) bursts = true →
  ∀ T,
    t_seen (state (t_advance_to T
                     (t_bursts func limit bursts (throttle_init t0 u))))
    = throttle_passes func (Z.max 0 limit) None bursts
        {| user := u; invocations := [] |}.
Proof.
  intros Hlow Hl Ho _ T. rewrite t_advance_to_seen.
  apply (t_bursts_run func limit Hlow Hl bursts
           {| user := u; invocations := [] |} (throttle_init t0 u) t0 None
           (Z.le_refl t0) Ho).
  done.
Qed.

Lemma throttle_passes_exactly_witness :
  invocations
    (t_seen (state (t_advance_to 2000
                      (t_bursts (returning keep) 250
                         [ mkBurst 0 1%nat [ 2%nat ]; mkBurst 100 3%nat [];
                           mkBurst 400 4%nat []; mkBurst 500 5%nat [] ]
                         (throttle_init 0 [])))))
  = [ (0, 1%nat); (400, 4%nat) ].
Proof.
  rewrite (throttle_passes_exactly (returning keep) 250 [] 0
             [ mkBurst 0 1%nat [ 2%nat ]; mkBurst 100 3%nat [];
               mkBurst 400 4%nat []; mkBurst 500 5%nat [] ]
             ltac:(lia) ltac:(lia) ltac:(reflexivity) ltac:(reflexivity) 2000).
  reflexivity.
Defined.



(** Three calls debounced by 250 ms as [handleResize] is. *)
Example debounce_three_calls_run :
  d_seen (state (d_advance_to keep 549
                   (d_calls keep 250 ((0, 1%nat) :: further_calls)
                      (debounce_init 0 []))))
    = {| user := []; invocations := [] |}
  ∧ d_seen (state (d_advance_to keep 550
                     (d_calls keep 250 ((0, 1%nat) :: further_calls)
                        (debounce_init 0 []))))
    = {| user := [3%nat]; invocations := [ (550, 3%nat) ] |}.
Proof. split; reflexivity. Qed.

(** Calls further apart than [wait] are each let through. *)
Example debounce_slow_calls_run :
  invocations
    (d_seen (state (d_advance_to keep 1000
                      (d_calls keep 250 [ (0, 1%nat); (300, 2%nat) ]
                         (debounce_init 0 [])))))
    = [ (250, 1%nat); (550, 2%nat) ].
Proof. reflexivity. Qed.

(** A call made after [limit] has passed since the first goes through. *)
Example throttle_after_limit_run :
  invocations
    (t_seen (state (t_calls (returning keep) 250
                      [ (0, 1%nat); (249, 2%nat); (251, 3%nat) ]
                      (throttle_init 0 []))))
    = [ (0, 1%nat); (251, 3%nat) ].
Proof. reflexivity. Qed.

(** Two calls in one task with a limit of 0: the second is held back,
    the timer that ends the hold cannot fire before the task is over. *)
Example throttle_same_task_run :
  invocations
    (t_seen (state (t_advance_to 10
                      (t_bursts (returning keep) 0
                         [ mkBurst 0 1%nat [ 2%nat ] ]
                         (throttle_init 0 [])))))
    = [ (0, 1%nat) ].
Proof. reflexivity. Qed.

(** Two calls in one task with a wait of 0: only the second is passed
    on. *)
Example debounce_same_task_run :
  invocations
    (d_seen (state (d_advance_to keep 10
                      (d_bursts keep 0 [ mkBurst 0 1%nat [ 2%nat ] ]
                         (debounce_init 0 [])))))
    = [ (0, 2%nat) ].
Proof. reflexivity. Qed.

Lemma debounce_invokes_once_after_last_call_witness :
  d_seen (state (d_advance_to keep 1000
                   (d_calls keep 250 ((0, 1%nat) :: further_calls)
                      (debounce_init 0 []))))
    = {| user := [3%nat]; invocations := [ (550, 3%nat) ] |}.
Proof.
  apply (proj2 (debounce_invokes_once_after_last_call
                  keep 250 [] 0 1%nat further_calls
                  ltac:(lia) ltac:(lia) ltac:(reflexivity))).
  simpl. lia.
Defined.


End RateLimitFacts.

(** ** Mobile menu *)

Module MenuFacts.

Import Menu.

Local Open Scope Z_scope.

Lemma classList_toggle_twice (c : string) (cl : gset string) :
  classList_toggle c (classList_toggle c cl) = cl.
Proof.
  unfold classList_toggle. destruct (classList_contains c cl) eqn:E.
  - apply contains_true in E.
    rewrite (proj2 (contains_false c (classList_remove c cl)))
      by (unfold classList_remove; set_solver).
    unfold classList_add, classList_remove. apply set_eq. intros x.
    destruct (decide (x = c)); subst; set_solver.
  - apply contains_false in E.
    rewrite (proj2 (contains_true c (classList_add c cl)))
      by (unfold classList_add; set_solver).
    unfold classList_add, classList_remove. set_solver.
Qed.

Lemma contains_toggle (c : string) (cl : gset string) :
  classList_contains c (classList_toggle c cl) = negb (classList_contains c cl).
Proof.
  unfold classList_toggle. destruct (classList_contains c cl) eqn:E; simpl.
  - rewrite contains_remove. by rewrite bool_decide_eq_true_2.
  - rewrite contains_add. by rewrite bool_decide_eq_true_2.
Qed.

(** Two clicks on the menu icon bring the navbar and the icon back to the
    classes they had, whatever these were: the document listener that runs
    after the icon's own never takes such a click for one outside. *)
Theorem click_menuIcon_twice (b b' : bool) (s : State) :
  click (OnMenuIcon b') (click (OnMenuIcon b) s) = s.
Proof.
  unfold click, document_click. rewrite !andb_false_r.
  unfold menuIcon_click. simpl. rewrite !classList_toggle_twice.
  by destruct s.
Qed.

Lemma handle_in_sync (e : Event) (s : State) :
  in_sync s → in_sync (handle e s).
Proof.
  assert (Hc : ∀ s', in_sync {| navbar := classList_remove "active" (navbar s');
                               menuIcon := classList_remove "bx-x" (menuIcon s') |}).
  { intros s'. unfold in_sync, classList_remove. simpl. set_solver. }
  assert (Ht : in_sync s → in_sync (menuIcon_click s)).
  { unfold in_sync, menuIcon_click. simpl.
    rewrite <- !contains_true, !contains_toggle.
    destruct (classList_contains "active" (navbar s)),
             (classList_contains "bx-x" (menuIcon s)); simpl; intuition. }
  intros Hs. destruct e as [[b|b|b]|key|width]; simpl;
    unfold document_click, document_keydown, resize_settled.
  - rewrite andb_false_r. auto.
  - destruct b; simpl; [apply (Hc s) | apply (Hc (navLink_click s))].
  - destruct b; simpl; [exact Hs | apply Hc].
  - destruct (_ && _); [apply Hc | exact Hs].
  - destruct (_ >? _); [apply Hc | exact Hs].
Qed.

(** The two classes never drift apart: when the navbar is open exactly
    when the icon shows the cross, this is still so after any sequence of
    clicks, key presses and settled resizes. *)
Theorem run_in_sync (events : list Event) (s : State) :
  in_sync s → in_sync (run events s).
Proof.
  revert s. induction events as [|e rest IH]; intros s Hs; simpl; [done|].
  apply IH. by apply handle_in_sync.
Qed.

Lemma run_in_sync_witness :
  in_sync (run [ Click (OnMenuIcon false); Keydown "Escape" ]
             {| navbar := ∅; menuIcon := ∅ |}).
Proof. apply run_in_sync. unfold in_sync. simpl. set_solver. Defined.

(** What each event does to a menu whose two classes agree: a click on
    the icon turns an open menu closed and a closed one open; an event
    written to close the menu leaves it closed; every other event (a click
    inside the navbar but not on a link, a key other than Escape, a resize
    that settles at 768 or below) changes nothing. *)
Theorem handle_event_table (e : Event) (s : State) :
  in_sync s →
  match e with
  | Click (OnMenuIcon _) => is_open (handle e s) = negb (is_open s)
  | _ => if closes e then is_closed (handle e s) else handle e s = s
  end.
Proof.
  intros Hs.
  assert (Hc : is_closed {| navbar := classList_remove "active" (navbar s);
                            menuIcon := classList_remove "bx-x" (menuIcon s) |}).
  { unfold is_closed, classList_remove. simpl. set_solver. }
  destruct e as [[b|b|b]|key|width]; simpl;
    unfold document_click, document_keydown, resize_settled.
  - rewrite andb_false_r. unfold is_open, menuIcon_click. simpl.
    apply contains_toggle.
  - destruct b; simpl; [exact Hc|].
    unfold is_closed, classList_remove. simpl. set_solver.
  - destruct b; simpl; [done | exact Hc].
  - destruct (String.eqb key "Escape"); simpl; [|done].
    destruct (classList_contains "active" (navbar s)) eqn:E; [exact Hc|].
    apply contains_false in E. unfold is_closed. split; [done|].
    unfold in_sync in Hs. tauto.
  - destruct (width >? 768); [exact Hc | done].
Qed.

Lemma handle_event_table_witness :
  is_closed (handle (Keydown "Escape")
               {| navbar := {[ "active" ]}; menuIcon := {[ "bx-x" ]} |}).
Proof.
  apply (handle_event_table (Keydown "Escape")).
  unfold in_sync. simpl. set_solver.
Defined.

End MenuFacts.

(** ** Typing effect *)

Module TypingFacts.

Import JsString Typing.

Local Open Scope Z_scope.

Section EffectFacts.

Variable titles : list jsstring.
Hypothesis titles_nonempty : Forall (λ t, t ≠ []) titles.

Implicit Types s : State.

Lemma next_title_in_range i title :
  titles !! i = Some title →
  ∃ title', titles !! ((i + 1) mod length titles)%nat = Some title' ∧
            title' ≠ [].
Proof.
  intros Hi. apply lookup_lt_Some in Hi.
  assert (Hlt : ((i + 1) mod length titles < length titles)%nat)
    by (apply Nat.mod_upper_bound; lia).
  destruct (lookup_lt_is_Some_2 _ _ Hlt) as [title' Ht].
  exists title'. split; [done|].
  eapply (proj1 (Forall_forall _ _) titles_nonempty), list_elem_of_lookup_2, Ht.
Qed.

Lemma type_in_step s :
  in_step titles s →
  ∃ s', type titles s = Some s' ∧ in_step titles s' ∧ shows_prefix titles s'.
Proof.
  intros (title & Hl & Hc). unfold type. rewrite Hl.
  destruct s as [i c del sp tx]. simpl in *. destruct del; simpl.
  - destruct (c - 1 =? 0) eqn:E.
    + apply Z.eqb_eq in E.
      destruct (next_title_in_range i title Hl) as (title' & Ht' & Hne).
      eexists. split; [done|]. unfold in_step, shows_prefix. simpl. split.
      * exists title'. split; [done|]. destruct title'; [done|]. simpl. lia.
      * exists title'. split; [done|]. by rewrite E.
    + apply Z.eqb_neq in E. eexists. split; [done|].
      unfold in_step, shows_prefix. simpl. split.
      * exists title. split; [done|]. lia.
      * by exists title.
  - destruct (c + 1 =? Z.of_nat (length title)) eqn:E.
    + apply Z.eqb_eq in E. eexists. split; [done|].
      unfold in_step, shows_prefix. simpl. split.
      * exists title. split; [done|]. lia.
      * by exists title.
    + apply Z.eqb_neq in E. eexists. split; [done|].
      unfold in_step, shows_prefix. simpl. split.
      * exists title. split; [done|]. lia.
      * by exists title.
Qed.

Lemma types_in_step n :
  ∀ s, in_step titles s →
  ∃ s', types titles n s = Some s' ∧ in_step titles s' ∧
        ((1 ≤ n)%nat → shows_prefix titles s').
Proof.
  induction n as [|n IH]; intros s Hs.
  - exists s. split_and!; [done | done | lia].
  - destruct (type_in_step s Hs) as (s1 & H1 & Hs1 & Hp1). simpl.
    rewrite H1. destruct n as [|n].
    + exists s1. by split_and!.
    + destruct (IH s1 Hs1) as (s' & H' & Hs' & Hp').
      exists s'. split_and!; [done | done |]. intros _. apply Hp'. lia.
Qed.

Lemma types_add a b s :
  types titles (a + b) s
  = match types titles a s with
    | Some s' => types titles b s'
    | None => None
    end.
Proof.
  revert s. induction a as [|a IH]; intros s; simpl; [done|].
  destruct (type titles s); [apply IH | done].
Qed.

Lemma elapsed_add a b s s' :
  types titles a s = Some s' →
  elapsed titles (a + b) s = elapsed titles a s + elapsed titles b s'.
Proof.
  revert s. induction a as [|a IH]; intros s; simpl.
  - by intros [= ->].
  - destruct (type titles s) as [s1|]; [|done]. intros H.
    rewrite (IH s1 H). lia.
Qed.

Section OneTitle.

Variable i : nat.
Variable title : jsstring.
Hypothesis title_at_i : titles !! i = Some title.

Lemma typing_phase k :
  ∀ s, titleIndex s = i → isDeleting s = false →
       charIndex s + Z.of_nat k < Z.of_nat (length title) →
  ∃ s', types titles k s = Some s' ∧
        titleIndex s' = i ∧ isDeleting s' = false ∧
        charIndex s' = charIndex s + Z.of_nat k ∧
        elapsed titles k s = 150 * Z.of_nat k.
Proof.
  induction k as [|k IH]; intros s Hi Hd Hc.
  - exists s. split_and!; try done; simpl; lia.
  - simpl. unfold type. rewrite Hi, title_at_i, Hd. simpl.
    rewrite (proj2 (Z.eqb_neq _ _)) by lia.
    match goal with |- context [types titles k ?s1] =>
      destruct (IH s1) as (s' & H' & Hi' & Hd' & Hc' & He');
        [done | done | simpl; lia |] end.
    exists s'. simpl in *. split_and!; try done; lia.
Qed.

Lemma typing_last s :
  titleIndex s = i → isDeleting s = false →
  charIndex s + 1 = Z.of_nat (length title) →
  type titles s
  = Some {| titleIndex := i; charIndex := Z.of_nat (length title);
            isDeleting := true; typingSpeed := 2000; textContent := title |}.
Proof.
  intros Hi Hd Hc. unfold type. rewrite Hi, title_at_i, Hd. simpl.
  rewrite (proj2 (Z.eqb_eq _ _) Hc). unfold substring0.
  rewrite Hc, Nat2Z.id. by rewrite firstn_all.
Qed.

Lemma deleting_phase k :
  ∀ s, titleIndex s = i → isDeleting s = true →
       1 ≤ charIndex s - Z.of_nat k →
  ∃ s', types titles k s = Some s' ∧
        titleIndex s' = i ∧ isDeleting s' = true ∧
        charIndex s' = charIndex s - Z.of_nat k ∧
        elapsed titles k s = 50 * Z.of_nat k.
Proof.
  induction k as [|k IH]; intros s Hi Hd Hc.
  - exists s. split_and!; try done; simpl; lia.
  - simpl. unfold type. rewrite Hi, title_at_i, Hd. simpl.
    rewrite (proj2 (Z.eqb_neq _ _)) by lia.
    match goal with |- context [types titles k ?s1] =>
      destruct (IH s1) as (s' & H' & Hi' & Hd' & Hc' & He');
        [done | done | simpl; lia |] end.
    exists s'. simpl in *. split_and!; try done; lia.
Qed.

Lemma deleting_last s :
  titleIndex s = i → isDeleting s = true → charIndex s = 1 →
  type titles s
  = Some {| titleIndex := ((i + 1) mod length titles)%nat; charIndex := 0;
            isDeleting := false; typingSpeed := 500; textContent := [] |}.
Proof.
  intros Hi Hd Hc. unfold type. rewrite Hi, title_at_i, Hd, Hc. simpl.
  by destruct title.
Qed.

End OneTitle.

End EffectFacts.

(** The effect never breaks down: with at least one title and no empty
    title, any number of runs of [type] goes through, leaves [titleIndex]
    on a title and [charIndex] within that title, and after each run the
    subtitle shows the first [charIndex] characters of that title. *)
Theorem types_never_fails (titles : list jsstring) (text : jsstring) (n : nat) :
  titles ≠ [] → Forall (λ t, t ≠ []) titles →
  ∃ s, types titles n (start text) = Some s ∧
       in_step titles s ∧
       ((1 ≤ n)%nat → shows_prefix titles s).
Proof.
  intros Hne Hall. apply types_in_step; [done|].
  destruct titles as [|t rest]; [done|].
  exists t. split; [done|]. simpl.
  apply Forall_cons_1 in Hall as [Ht _]. destruct t; [done|]. simpl. lia.
Qed.

Lemma types_never_fails_witness :
  ∃ s, types Typing.titles 1000 (start []) = Some s ∧
       in_step Typing.titles s ∧
       ((1 ≤ 1000)%nat → shows_prefix Typing.titles s).
Proof.
  apply types_never_fails; [done|].
  repeat constructor; discriminate.
Defined.

(** One title, from nothing back to nothing: starting with [charIndex] at
    zero on a title of [L] characters, [L] runs type it out in full and
    set the long pause; [L] more delete it, move on to the next title
    (the first one after the last) and set the short pause. The [2 * L]
    runs take [200 * L + 2300] ms. *)
Theorem types_one_title (titles : list jsstring) (i : nat) (title : jsstring)
    (s : State) :
  titles !! i = Some title → title ≠ [] →
  titleIndex s = i → isDeleting s = false → charIndex s = 0 →
  let L := length title in
  types titles L s
    = Some {| titleIndex := i; charIndex := Z.of_nat L; isDeleting := true;
              typingSpeed := 2000; textContent := title |} ∧
  types titles (2 * L) s
    = Some {| titleIndex := ((i + 1) mod length titles)%nat; charIndex := 0;
              isDeleting := false; typingSpeed := 500; textContent := [] |} ∧
  elapsed titles (2 * L) s = 200 * Z.of_nat L + 2300.
Proof.
  intros Ht Hne Hi Hd Hc L.
  assert (HL : (1 ≤ L)%nat) by (unfold L; destruct title; [done | simpl; lia]).
  destruct (typing_phase titles i title Ht (L - 1) s Hi Hd)
    as (s1 & T1 & Hi1 & Hd1 & Hc1 & E1); [fold L; lia|].
  pose proof (typing_last titles i title Ht s1 Hi1 Hd1) as T2.
  fold L in T2. rewrite Hc1, Hc in T2. specialize (T2 ltac:(lia)).
  set (s2 := {| titleIndex := i; charIndex := Z.of_nat L; isDeleting := true;
                typingSpeed := 2000; textContent := title |}) in *.
  destruct (deleting_phase titles i title Ht (L - 1) s2 eq_refl eq_refl)
    as (s3 & T3 & Hi3 & Hd3 & Hc3 & E3); [simpl; lia|].
  pose proof (deleting_last titles i title Ht s3 Hi3 Hd3) as T4.
  rewrite Hc3 in T4. simpl in T4. specialize (T4 ltac:(lia)).
  assert (A1 : types titles L s = Some s2).
  { replace L with ((L - 1) + 1)%nat by lia.
    rewrite types_add, T1. simpl. by rewrite T2. }
  assert (A2 : types titles (L - 1 + 1) s2
               = Some {| titleIndex := ((i + 1) mod length titles)%nat;
                         charIndex := 0; isDeleting := false;
                         typingSpeed := 500; textContent := [] |}).
  { rewrite types_add, T3. simpl. by rewrite T4. }
  split_and!.
  - exact A1.
  - replace (2 * L)%nat with (L + (L - 1 + 1))%nat by lia.
    by rewrite types_add, A1.
  - replace (2 * L)%nat with (L + (L - 1 + 1))%nat by lia.
    rewrite (elapsed_add titles L _ s s2 A1).
    replace L with ((L - 1) + 1)%nat at 1 by lia.
    rewrite (elapsed_add titles (L - 1) 1 s s1 T1), E1.
    rewrite (elapsed_add titles (L - 1) 1 s2 s3 T3), E3.
    simpl elapsed. rewrite T2, T4. simpl. lia.
Qed.

Lemma types_one_title_witness :
  types Typing.titles 56 (start [])
  = Some {| titleIndex := 1; charIndex := 0; isDeleting := false;
            typingSpeed := 500; textContent := [] |}.
Proof.
  apply (proj1 (proj2 (types_one_title Typing.titles 0
                         (ContactForm.typed "Full Stack Software Engineer")
                         (start []) eq_refl ltac:(discriminate)
                         eq_refl eq_refl eq_refl))).
Defined.

End TypingFacts.

(** ** Scroll animations *)

Module RevealFacts.

Import EventLoop EventLoopFacts Reveal.

Local Open Scope Z_scope.

Implicit Types (w : World Task Dom) (entries : list Entry).

Lemma show_show (st : Style) : show (show st) = show st.
Proof. done. Qed.

Lemma turns_lower entries :
  ∀ index, Forall (λ p, Z.of_nat index * 100 ≤ fst p) (turns index entries).
Proof.
  induction entries as [|entry rest IH]; intros index; simpl; [constructor|].
  apply Forall_app. split.
  - destruct (isIntersecting entry); repeat constructor. simpl. lia.
  - eapply Forall_impl; [apply (IH (S index))|]. simpl. intros; lia.
Qed.

(** What the callback leaves behind: one timer for each turn, in the order
    of the entries, behind the timers already there; the styles and the
    clock as they were; the targets of the turns no longer watched. *)
Lemma forEach_entry_effect entries :
  ∀ index w,
    ∃ added,
      timers (forEach_entry index entries w) = timers w ++ added ∧
      Forall2 (λ t p, due t = now w + fst p ∧ task t = Show (snd p))
        added (turns index entries) ∧
      styles (state (forEach_entry index entries w)) = styles (state w) ∧
      now (forEach_entry index entries w) = now w ∧
      observed (state (forEach_entry index entries w))
        = observed (state w) ∖ list_to_set (map snd (turns index entries)).
Proof.
  induction entries as [|entry rest IH]; intros index w; simpl.
  - exists []. rewrite app_nil_r.
    split_and!; try done; first [ constructor | set_solver ].
  - destruct (isIntersecting entry); simpl.
    + match goal with |- context [forEach_entry (S index) rest ?w1] =>
        destruct (IH (S index) w1) as (added & Ht & Hf & Hs & Hn & Ho) end.
      simpl in *. eexists (_ :: added).
      rewrite Ht, Hs, Hn, Ho, <- app_assoc. simpl.
      split_and!; try done.
      all: first [ set_solver
                 | constructor; [|done]; simpl; split; [|done];
                   rewrite Z.max_r by lia; done ].
    + destruct (IH (S index) w) as (added & Ht & Hf & Hs & Hn & Ho).
      exists added. by split_and!.
Qed.

Lemma pending_weight_length (l : list (Timer Task)) :
  pending_weight weight l = length l.
Proof. induction l as [|t l IH]; simpl; [done|]. unfold pending_weight in *.
  simpl. by rewrite IH. Qed.

(** Timers that follow the turns fire in the order of the turns, as far as
    their time has come. *)
Lemma run_until_turns (now0 horizon : Z) entries :
  ∀ index fuel w,
    Forall2 (λ t p, due t = now0 + fst p ∧ task t = Show (snd p))
      (timers w) (turns index entries) →
    (length (timers w) ≤ fuel)%nat →
    styles (state (run_until run_task fuel horizon w))
      = foldl (λ st x, alter show x st) (styles (state w))
          (map snd (filter (λ p, fst p ≤ horizon - now0) (turns index entries)))
    ∧ observed (state (run_until run_task fuel horizon w)) = observed (state w).
Proof.
  induction entries as [|entry rest IH]; intros index fuel w Hf Hfuel.
  - simpl in *. inversion Hf as [Ht|]. symmetry in Ht.
    rewrite run_until_quiet by (rewrite Ht; constructor). done.
  - simpl in Hf. cbn [turns].
    destruct (isIntersecting entry); simpl in Hf |- *; [|by apply IH].
    inversion Hf as [|t p l ps [Hd Hk] Hrest Hl Hp]. subst p ps.
    symmetry in Hl.
    assert (Hlate : Forall (λ u, due t < due u) l).
    { pose proof (turns_lower rest (S index)) as Hlow.
      clear -Hrest Hlow Hd. simpl in Hd.
      induction Hrest as [|u q l' qs [Hu _] _ IH']; [constructor|].
      apply Forall_cons_1 in Hlow as [Hq Hlow].
      constructor; [lia | by apply IH']. }
    assert (Hpop : pop_earliest (timers w) = Some (t, l)).
    { rewrite Hl. apply pop_earliest_head.
      eapply Forall_impl; [exact Hlate|]. simpl. intros; lia. }
    destruct (decide (due t ≤ horizon)) as [Hle|Hgt].
    + rewrite filter_cons_True by (simpl in *; lia). simpl.
      destruct fuel as [|fuel]; [rewrite Hl in Hfuel; simpl in Hfuel; lia|].
      simpl. unfold fire. rewrite Hpop.
      rewrite (proj2 (Z.leb_le _ _) Hle), Hk. simpl.
      match goal with |- context [run_until run_task fuel horizon ?w1] =>
        destruct (IH (S index) fuel w1) as [E1 E2] end.
      * exact Hrest.
      * simpl. rewrite Hl in Hfuel. simpl in Hfuel. lia.
      * simpl in *. by rewrite E1, E2.
    + rewrite run_until_quiet.
      2:{ rewrite Hl. constructor; [lia|].
          eapply Forall_impl; [exact Hlate|]. simpl. intros; lia. }
      rewrite filter_cons_False by (simpl in *; lia).
      assert (Hnone : filter (λ p : Z * nat, fst p ≤ horizon - now0)
                        (turns (S index) rest) = []).
      { pose proof (turns_lower rest (S index)) as Hlow. simpl in Hd.
        clear -Hlow Hd Hgt.
        induction Hlow as [|q qs Hq _ IH']; [done|].
        rewrite filter_cons_False by lia. exact IH'. }
      by rewrite Hnone.
Qed.


Lemma animationObserver_effect entries w (elapsed : Z) :
  timers w = [] →
  styles (state (advance_to (now w + elapsed) (animationObserver entries w)))
    = foldl (λ st x, alter show x st) (styles (state w))
        (shown_after elapsed entries) ∧
  observed (state (advance_to (now w + elapsed) (animationObserver entries w)))
    = observed (state w) ∖ list_to_set (map snd (turns 0 entries)).
Proof.
  intros Hw. unfold advance_to, EventLoop.advance_to, animationObserver.
  destruct (forEach_entry_effect entries 0 w)
    as (added & Ht & Hf & Hs & Hn & Ho).
  rewrite Hw in Ht. simpl in Ht. simpl.
  destruct (run_until_turns (now w) (now w + elapsed) entries 0
              (pending_weight weight (timers (forEach_entry 0 entries w)))
              (forEach_entry 0 entries w)) as [E1 E2].
  - by rewrite Ht.
  - by rewrite pending_weight_length.
  - rewrite E1, E2, Hs, Ho. unfold shown_after.
    replace (now w + elapsed - now w) with elapsed by lia. done.
Qed.

(** The stagger: [elapsed] ms after a callback that found no timer
    pending, exactly the intersecting entries whose index times 100 is at
    most [elapsed] have had their target shown, in the order of the
    entries; each target of an intersecting entry is no longer watched,
    whether shown yet or not. *)
Theorem animationObserver_staggers entries w (elapsed : Z) :
  timers w = [] →
  let w' := advance_to (now w + elapsed) (animationObserver entries w) in
  styles (state w')
    = foldl (λ st x, alter show x st) (styles (state w))
        (shown_after elapsed entries) ∧
  observed (state w')
    = observed (state w) ∖ list_to_set (map snd (turns 0 entries)).
Proof. intros Hw w'. by apply animationObserver_effect. Qed.

Lemma animationObserver_staggers_witness :
  let w := animateOnScroll
             {| now := 0; next_id := 1; timers := [];
                state := {| styles := replicate 3 (mkStyle "" "" "");
                            observed := ∅ |} |} in
  let entries := [ mkEntry true 2; mkEntry false 0; mkEntry true 1 ] in
  map opacity (styles (state (advance_to (now w + 150)
                                (animationObserver entries w))))
  = [ "0"; "0"; "1" ].
Proof.
  intros w entries.
  rewrite (proj1 (animationObserver_staggers entries w 150 eq_refl)).
  reflexivity.
Defined.



End RevealFacts.
